(** * Sarus: security checks, command factory and OCI hooks

    A shallow embedding of the parts of Sarus that the specification makes
    claims about, with the claims stated and proved over the embedding.

    - [SecurityChecks]: src/common/SecurityChecks.cpp
    - [Cli]: src/cli/CommandObjectsFactory.{hpp,cpp}
    - [SlurmGlobalSync]: the hook exercised by
      src/hooks/slurm_global_sync/test/test_hook.cpp
    - [Ssh]: the checks of src/hooks/ssh/test/test_SSHHook.cpp
    - [Glibc]: the hook declared in src/hooks/glibc/GlibcHook.hpp

    The first part of the file holds the definitions, the second part the
    theorems. *)

From Stdlib Require Import ZArith List String Ascii Bool Lia.
From stdpp Require Import gmap strings list.
From Equations Require Import Equations.
Import ListNotations.

#[local] Set Warnings "-register-all".
#[local] Open Scope string_scope.
#[local] Open Scope Z_scope.
#[local] Open Scope list_scope.
#[local] Open Scope stdpp_scope.

(** Permission constants are written in octal in the sources and in POSIX;
    [octal] reads a list of octal digits, most significant first. *)
Definition octal (digits : list Z) : Z :=
  fold_left (fun acc d => 8 * acc + d) digits 0.

(** ** Errors *)
Module Error.

Section Errors.
Context {Message : Type}.

(** Modelled from the spec: the class common::Error (common/Error.hpp is not
    among the sources). The spec describes an error as carrying a message and
    an underlying-cause chain: an [Error] is the chain of its trace entries,
    oldest first. *)
Definition Error : Type := list Message.

(** Modelled from the spec: the macro SARUS_THROW_ERROR (common/Error.hpp is
    not among the sources): the error thrown has the message as its only
    trace entry. *)
Definition SARUS_THROW_ERROR (message : Message) : Error := [message].

(** Modelled from the spec: the macro SARUS_RETHROW_ERROR (common/Error.hpp
    is not among the sources): the error that was caught is thrown again,
    with one more trace entry; it keeps its cause chain. *)
Definition SARUS_RETHROW_ERROR (e : Error) (message : Message) : Error :=
  e ++ [message].

(** [cause] is (the older part of) the cause chain carried by [e]. *)
Definition carries (e cause : Error) : Prop :=
  exists later, e = cause ++ later.

End Errors.

Arguments Error : clear implicits.

End Error.

(** ** The filesystem seen by the security checks

    boost::filesystem::path is modelled by its decomposition: whether the
    path has a root directory, and the sequence of its element names (what
    iterating over the path yields after the root directory). Paths are taken
    without "." and ".." elements, and symbolic links are not modelled, so
    the lexical parent of an existing path is the directory that contains
    it. *)
Module Filesystem.

Record path : Type := Path { is_absolute : bool; elems : list string }.

#[global] Instance path_eq_dec : EqDecision path.
Proof. solve_decision. Defined.

(** The empty path, [boost::filesystem::path{}]. *)
Definition empty_path : path := Path false [].

(** [path::root_path()]: "/" for an absolute path, empty otherwise. *)
Definition root_path (p : path) : path :=
  if is_absolute p then Path true [] else empty_path.

(** [path::parent_path()]: the path without its last element; empty when the
    path has a single element (a lone root directory or a lone name) or
    none. *)
Definition parent_path (p : path) : path :=
  match elems p with
  | [] => empty_path
  | _ :: _ => Path (is_absolute p) (removelast (elems p))
  end.

(** [operator/] with a relative right-hand side. *)
Definition append (p : path) (names : list string) : path :=
  Path (is_absolute p) (elems p ++ names).

Infix "/" := append : stdpp_scope.

(** A file or a directory with its owner, its permission bits and, for a
    directory, its entries by name. *)
Inductive node : Type :=
| File (uid gid : Z) (permissions : Z)
| Dir (uid gid : Z) (permissions : Z) (entries : list (string * node)).

Definition node_uid (n : node) : Z :=
  match n with File u _ _ | Dir u _ _ _ => u end.

Definition node_gid (n : node) : Z :=
  match n with File _ g _ | Dir _ g _ _ => g end.

Definition node_permissions (n : node) : Z :=
  match n with File _ _ m | Dir _ _ m _ => m end.

Fixpoint entry (name : string) (entries : list (string * node)) : option node :=
  match entries with
  | [] => None
  | (name', n) :: rest =>
      if decide (name = name') then Some n else entry name rest
  end.

Fixpoint find_node (n : node) (names : list string) : option node :=
  match names with
  | [] => Some n
  | name :: rest =>
      match n with
      | File _ _ _ => None
      | Dir _ _ _ entries =>
          match entry name entries with
          | Some child => find_node child rest
          | None => None
          end
      end
  end.

(** The state of the filesystem: the tree below the root directory and the
    current working directory, against which relative paths resolve. *)
Record filesystem : Type :=
  { root_directory : node; current_path : list string }.

(** Resolution of a path as the operating system does it ([stat]): the empty
    path resolves to nothing. *)
Definition resolve (fs : filesystem) (p : path) : option node :=
  if is_absolute p then find_node (root_directory fs) (elems p)
  else match elems p with
       | [] => None
       | _ :: _ => find_node (root_directory fs) (current_path fs ++ elems p)
       end.

(** [boost::filesystem::exists]. *)
Definition path_exists (fs : filesystem) (p : path) : bool :=
  if resolve fs p is Some _ then true else false.

(** [boost::filesystem::is_directory]. *)
Definition is_directory (fs : filesystem) (p : path) : bool :=
  if resolve fs p is Some (Dir _ _ _ _) then true else false.

(** [boost::filesystem::status(p).permissions()]: the permission bits of the
    file, and [no_perms] (0) when the file is not found. *)
Definition no_perms : Z := 0.

Definition status_permissions (fs : filesystem) (p : path) : Z :=
  match resolve fs p with
  | Some n => node_permissions n
  | None => no_perms
  end.

(** The names, relative to the directory, of everything below a directory, in
    the order of a [recursive_directory_iterator]: each entry is followed by
    what is below it. *)
Fixpoint descendants (n : node) : list (list string) :=
  match n with
  | File _ _ _ => []
  | Dir _ _ _ entries =>
      flat_map (fun e => [e.1] :: map (cons e.1) (descendants e.2)) entries
  end.

(** The entries that [recursive_directory_iterator{p}] yields, as paths.
    The tree has regular files and directories only. With its default
    options the iterator of Boost does not enter a directory through a
    symbolic link, whereas [exists], [is_directory] and [status] follow
    links: on a filesystem with links the entries are fewer than the paths
    that exist below [p]. The theorems use this list as the entries that
    the code iterates over. *)
Definition recursive_directory_iterator (fs : filesystem) (p : path) : list path :=
  match resolve fs p with
  | Some n => map (append p) (descendants n)
  | None => []
  end.

Lemma parent_path_length p :
  elems p <> [] ->
  (length (elems (parent_path p)) < length (elems p))%nat.
Proof.
  destruct p as [a l]; simpl; intros Hl. unfold parent_path; simpl.
  destruct l as [|x l _] using rev_ind; [done|].
  destruct (l ++ [x]) eqn:E; [now destruct l|]. rewrite <- E. simpl elems.
  rewrite removelast_last, length_app. simpl. lia.
Qed.

End Filesystem.

(** ** src/common/SecurityChecks.cpp

    Every function of the class runs in [Checks]: it records the primitive
    checks that were carried out, in order, and either returns or throws a
    common::Error; an exception ends the computation. Log messages are not
    part of the model. The text of an error message is represented by its
    format and its arguments. *)
Module SecurityChecks.
Import Error Filesystem.

Inductive message : Type :=
| OwnerNotDetermined (p : path)
    (* the error thrown by common::getOwner *)
| FailedToCheckPathIsUntamperable (p : path)
    (* "Failed to check that path %s is untamperable" *)
| PathMustBeOwnedByRoot (p : path) (uid gid : Z)
    (* "Path %s must be owned by root ... Found uid=%d, gid=%d." *)
| PathCannotBeGroupOrWorldWritable (p : path)
    (* "Path %s cannot be group- or world-writable ..." *)
| FailedToCheckOCIHookIsUntamperable (p : path).
    (* "Failed to check that OCI hook %s is untamperable" *)

Inductive event : Type :=
| CheckedRootOwned (p : path)
| CheckedNotGroupWritableOrWorldWritable (p : path).

Definition Checks (A : Type) : Type := list event * (Error message + A).

#[global] Instance Checks_ret : MRet Checks := fun A a => ([], inr a).

#[global] Instance Checks_bind : MBind Checks := fun A B f m =>
  match m with
  | (done, inl e) => (done, inl e)
  | (done, inr a) => let '(done', r) := f a in (done ++ done', r)
  end.

Definition throw {A : Type} (e : Error message) : Checks A := ([], inl e).

Definition record (ev : event) : Checks unit := ([ev], inr tt).

(** [try { m } catch(common::Error& e) { handler e }] *)
Definition try_catch {A : Type} (m : Checks A)
    (handler : Error message -> Checks A) : Checks A :=
  match m with
  | (done, inl e) => let '(done', r) := handler e in (done ++ done', r)
  | (done, inr a) => (done, inr a)
  end.

Fixpoint for_each {A : Type} (body : A -> Checks unit) (range : list A) : Checks unit :=
  match range with
  | [] => mret tt
  | x :: rest => body x ;; for_each body rest
  end.

(** What a computation did and how it ended. *)
Definition performed {A : Type} (m : Checks A) : list event := m.1.
Definition outcome {A : Type} (m : Checks A) : Error message + A := m.2.
Definition succeeds (m : Checks unit) : Prop := outcome m = inr tt.
Definition fails (m : Checks unit) : Prop := exists e, outcome m = inl e.

(** Modelled from the spec: common::getOwner (common/Utility.cpp is not among
    the sources). Its callers show that it returns the owner (uid, gid) of a
    path and throws a common::Error when the owner cannot be determined; the
    spec speaks of the owning UID of a path. It is modelled by [stat] on the
    filesystem: it fails on a path that does not resolve. *)
Definition getOwner (fs : filesystem) (p : path) : Error message + (Z * Z) :=
  match resolve fs p with
  | Some n => inr (node_uid n, node_gid n)
  | None => inl (SARUS_THROW_ERROR (OwnerNotDetermined p))
  end.

(** The part of common::Config that the checks read, [config->json]; the
    member "OCIHooks" is optional, and so is each hook type in it. An OCI hook
    is represented by its "path". *)
Record Config : Type :=
  { mksquashfsPath : path;
    initPath : path;
    runcPath : path;
    OCIHooks : option (gmap string (list path));
    securityChecks : bool;
    prefixDir : path }.

Section Checks.
Variable config : Config.
Variable fs : filesystem.

Definition checkThatPathIsRootOwned (p : path) : Checks unit :=
  record (CheckedRootOwned p) ;;
  match getOwner fs p with
  | inl e =>
      throw (SARUS_RETHROW_ERROR e (FailedToCheckPathIsUntamperable p))
  | inr (uid, gid) =>
      if bool_decide (uid <> 0)
      then throw (SARUS_THROW_ERROR (PathMustBeOwnedByRoot p uid gid))
      else mret tt
  end.

Definition checkThatPathIsNotGroupWritableOrWorldWritable (p : path) : Checks unit :=
  record (CheckedNotGroupWritableOrWorldWritable p) ;;
  let permissions := status_permissions fs p in
  let isGroupWritable := Z.land permissions (Z.shiftl 1 4) in
  let isWorldWritable := Z.land permissions (Z.shiftl 1 1) in
  if bool_decide (isGroupWritable <> 0) || bool_decide (isWorldWritable <> 0)
  then throw (SARUS_THROW_ERROR (PathCannotBeGroupOrWorldWritable p))
  else mret tt.

(** The condition of the do-while loop of [checkThatPathIsUntamperable]. *)
Definition loop_continues (rootPath parentPath : path) : bool :=
  path_exists fs parentPath && bool_decide (parentPath <> rootPath).

Lemma loop_continues_shorter rootPath p :
  loop_continues rootPath (parent_path p) = true ->
  (length (elems (parent_path p)) < length (elems p))%nat.
Proof.
  intros H. apply parent_path_length. intros Hnil.
  unfold parent_path, loop_continues in H. rewrite Hnil in H. discriminate.
Qed.

(** The do-while loop of [checkThatPathIsUntamperable]: it ends because each
    iteration removes an element from [parentPath]. *)
Equations checkParentPaths (rootPath parentPath : path) : Checks unit
  by wf (length (elems parentPath)) lt :=
checkParentPaths rootPath parentPath :=
  checkThatPathIsRootOwned parentPath ;;
  checkThatPathIsNotGroupWritableOrWorldWritable parentPath ;;
  let parentPath' := parent_path parentPath in
  (if loop_continues rootPath parentPath' as continue
      return loop_continues rootPath parentPath' = continue -> Checks unit
   then fun _ => checkParentPaths rootPath parentPath'
   else fun _ => mret tt) eq_refl.
Next Obligation. eapply loop_continues_shorter; eassumption. Qed.

Definition checkThatPathIsUntamperable (p : path) : Checks unit :=
  (* check that parent paths are untamperable *)
  let rootPath := root_path p in
  checkParentPaths rootPath p ;;
  (* if directory, check that subpaths are untamperable *)
  if is_directory fs p
  then for_each
         (fun entry =>
            checkThatPathIsRootOwned entry ;;
            checkThatPathIsNotGroupWritableOrWorldWritable entry)
         (recursive_directory_iterator fs p)
  else mret tt.

Definition checkThatBinariesInSarusJsonAreUntamperable : Checks unit :=
  checkThatPathIsUntamperable (mksquashfsPath config) ;;
  checkThatPathIsUntamperable (initPath config) ;;
  checkThatPathIsUntamperable (runcPath config).

(** Called only once "OCIHooks" is known to be a member of the
    configuration. *)
Definition checkThatOCIHooksAreUntamperableByType (hookType : string) : Checks unit :=
  match OCIHooks config ≫= (fun hooks => hooks !! hookType) with
  | None => mret tt
  | Some hooks =>
      for_each
        (fun hook =>
           try_catch (checkThatPathIsUntamperable hook)
             (fun e => throw (SARUS_RETHROW_ERROR e
                                (FailedToCheckOCIHookIsUntamperable hook))))
        hooks
  end.

Definition checkThatOCIHooksAreUntamperable : Checks unit :=
  match OCIHooks config with
  | None => mret tt (* no hooks to check *)
  | Some _ =>
      checkThatOCIHooksAreUntamperableByType "prestart" ;;
      checkThatOCIHooksAreUntamperableByType "poststart" ;;
      checkThatOCIHooksAreUntamperableByType "poststop"
  end.

Definition runSecurityChecks (sarusInstallationPrefixDir : path) : Checks unit :=
  let configFilename := sarusInstallationPrefixDir / ["etc"; "sarus.json"] in
  let configSchemaFilename :=
    sarusInstallationPrefixDir / ["etc"; "sarus.schema.json"] in
  checkThatPathIsRootOwned configFilename ;;
  checkThatPathIsNotGroupWritableOrWorldWritable configFilename ;;
  checkThatPathIsRootOwned configSchemaFilename ;;
  checkThatPathIsNotGroupWritableOrWorldWritable configSchemaFilename ;;
  (* The rest of the checks depend on user configuration *)
  if negb (securityChecks config)
  then mret tt
  else
    checkThatBinariesInSarusJsonAreUntamperable ;;
    checkThatOCIHooksAreUntamperable ;;
    checkThatPathIsUntamperable (prefixDir config / ["openssh"]) ;;
    checkThatPathIsUntamperable (prefixDir config / ["bin"; "ssh_hook"]).

End Checks.

End SecurityChecks.

(** ** src/cli/CommandObjectsFactory.hpp and .cpp

    The factory keeps two maps from command names to functions that build
    command objects. The command classes themselves (cli/CommandRun.hpp and
    the others) are not among the sources: the type of command objects and
    the two constructors of each class are parameters, and a constructor may
    throw. *)
Module Cli.
Import Error.

(** The classes that [addCommand] is instantiated with. *)
Inductive CommandType : Type :=
| CommandHelp | CommandImages | CommandLoad | CommandPull
| CommandRmi | CommandRun | CommandSshKeygen | CommandVersion.

Inductive message : Type :=
| InvalidCommandName (commandName : string)
    (* "Failed to make command object for command name "%s"
        (invalid command name)" *)
| ConstructorMessage (text : string).
    (* the message of an error that the constructor of a command class
       throws; the classes are not among the sources *)

(** The result of a call: a value, an exception, or undefined behaviour (an
    end iterator is dereferenced). *)
Inductive result (A : Type) : Type :=
| Returned (a : A)
| Thrown (e : Error message)
| Undefined.

Arguments Returned {A} a.
Arguments Thrown {A} e.
Arguments Undefined {A}.

Definition throws {A : Type} (r : result A) : Prop := exists e, r = Thrown e.

Section Factory.
Variable Command : Type.
Variable CLIArguments : Type.
Variable Config : Type.
(** [new CommandType{}] *)
Variable construct : CommandType -> result Command.
(** [new CommandType{commandArgsGroups, std::move(config)}] *)
Variable constructWithArguments :
  CommandType -> list CLIArguments -> Config -> result Command.

Record CommandObjectsFactory : Type :=
  { map : gmap string (unit -> result Command);
    mapWithArguments :
      gmap string (list CLIArguments -> Config -> result Command) }.

(** The two maps of a factory under construction are empty. *)
Definition empty_factory : CommandObjectsFactory :=
  {| map := ∅; mapWithArguments := ∅ |}.

Definition addCommand (T : CommandType) (commandName : string)
    (this : CommandObjectsFactory) : CommandObjectsFactory :=
  {| map := <[commandName := fun _ => construct T]> (map this);
     mapWithArguments :=
       <[commandName :=
           fun commandArgsGroups config =>
             constructWithArguments T commandArgsGroups config]>
         (mapWithArguments this) |}.

(** The constructor [CommandObjectsFactory::CommandObjectsFactory()]. *)
Definition new_CommandObjectsFactory : CommandObjectsFactory :=
  addCommand CommandVersion "version"
    (addCommand CommandSshKeygen "ssh-keygen"
      (addCommand CommandRun "run"
        (addCommand CommandRmi "rmi"
          (addCommand CommandPull "pull"
            (addCommand CommandLoad "load"
              (addCommand CommandImages "images"
                (addCommand CommandHelp "help" empty_factory))))))).

Definition isValidCommandName (this : CommandObjectsFactory)
    (commandName : string) : bool :=
  bool_decide (is_Some (map this !! commandName)).

(** The names are pushed in the iteration order of the map. *)
Definition getCommandNames (this : CommandObjectsFactory) : list string :=
  (map_to_list (map this)).*1.

Definition makeCommandObject (this : CommandObjectsFactory)
    (commandName : string) : result Command :=
  if negb (isValidCommandName this commandName)
  then Thrown (SARUS_THROW_ERROR (InvalidCommandName commandName))
  else
    match map this !! commandName with
    | Some make => make tt
    | None => Undefined
    end.

Definition makeCommandObjectWithArguments (this : CommandObjectsFactory)
    (commandName : string) (commandArgsGroups : list CLIArguments)
    (config : Config) : result Command :=
  if negb (isValidCommandName this commandName)
  then Thrown (SARUS_THROW_ERROR (InvalidCommandName commandName))
  else
    match mapWithArguments this !! commandName with
    | Some make => make commandArgsGroups config
    | None => Undefined
    end.

(** The maps are private: a factory is what the constructor built, followed
    by calls of [addCommand]. *)
Inductive factory : CommandObjectsFactory -> Prop :=
| factory_new : factory new_CommandObjectsFactory
| factory_addCommand T commandName this :
    factory this -> factory (addCommand T commandName this).

(** [new cli::CommandHelpOfCommand{std::move(commandObject)}]; the class
    (cli/CommandHelpOfCommand.hpp) is not among the sources either. *)
Variable constructHelpOfCommand : Command -> result Command.

Definition makeCommandObjectHelpOfCommand (this : CommandObjectsFactory)
    (commandName : string) : result Command :=
  match makeCommandObject this commandName with
  | Returned commandObject => constructHelpOfCommand commandObject
  | Thrown e => Thrown e
  | Undefined => Undefined
  end.

End Factory.

Arguments map {Command CLIArguments Config}.
Arguments mapWithArguments {Command CLIArguments Config}.
Arguments empty_factory {Command CLIArguments Config}.
Arguments addCommand {Command CLIArguments Config}.
Arguments new_CommandObjectsFactory {Command CLIArguments Config}.
Arguments isValidCommandName {Command CLIArguments Config}.
Arguments getCommandNames {Command CLIArguments Config}.
Arguments makeCommandObject {Command CLIArguments Config}.
Arguments makeCommandObjectWithArguments {Command CLIArguments Config}.
Arguments makeCommandObjectHelpOfCommand {Command CLIArguments Config}.
Arguments factory {Command CLIArguments Config}.
Arguments factory_new {Command CLIArguments Config}.
Arguments factory_addCommand {Command CLIArguments Config}.

End Cli.

(** ** Strings as the hooks and their tests read them *)
Module Text.

Definition newline : ascii := "010"%char.
Definition double_quote : ascii := "034"%char.

(** [c] occurs in [s]. *)
Fixpoint occurs (c : ascii) (s : string) : bool :=
  match s with
  | EmptyString => false
  | String c' rest => Ascii.eqb c' c || occurs c rest
  end.

(** [boost::split(tokens, s, boost::is_any_of(sep))] for a single separator
    character: the tokens between the separators, empty tokens included. *)
Fixpoint split (sep : ascii) (s : string) : list string :=
  match s with
  | EmptyString => [EmptyString]
  | String c rest =>
      if Ascii.eqb c sep then EmptyString :: split sep rest
      else match split sep rest with
           | [] => [String c EmptyString]
           | token :: tokens => String c token :: tokens
           end
  end.

(** The lines that successive calls of [std::getline] extract from a stream
    with the given content, until a call fails: a call fails when nothing is
    left; the last line need not end with a newline. *)
Fixpoint getlines (stream : string) : list string :=
  match stream with
  | EmptyString => []
  | String c rest =>
      if Ascii.eqb c newline then EmptyString :: getlines rest
      else match getlines rest with
           | [] => [String c EmptyString]
           | line :: lines => String c line :: lines
           end
  end.

(** [s.substr(pos, n)] with [n] of type size_t: the exception
    std::out_of_range when [pos] is past the end, otherwise at most [n]
    characters from [pos]. *)
Definition size_t (n : Z) : Z := n mod 2 ^ 64.

Definition substr (s : string) (pos : Z) (n : Z) : option string :=
  let size := Z.of_nat (String.length s) in
  if size <? pos then None
  else Some (substring (Z.to_nat pos) (Z.to_nat (Z.min n (size - pos))) s).

Definition is_digit (c : ascii) : bool :=
  (48 <=? nat_of_ascii c)%nat && (nat_of_ascii c <=? 57)%nat.

Fixpoint digits_value (s : string) (acc : nat) : option nat :=
  match s with
  | EmptyString => Some acc
  | String c rest =>
      if is_digit c
      then digits_value rest (10 * acc + (nat_of_ascii c - 48))%nat
      else None
  end.

(** The number that a string of decimal digits denotes. *)
Definition number (s : string) : option nat :=
  match s with
  | EmptyString => None
  | String _ _ => digits_value s 0%nat
  end.

(** A text file is written line by line, each line ended by a newline. *)
Definition line (s : string) : string := s +:+ String newline EmptyString.

Fixpoint unlines (lines : list string) : string :=
  match lines with
  | [] => EmptyString
  | l :: rest => line l +:+ unlines rest
  end.

End Text.

(** ** The environment of the container

    The member process.env of the bundle's config.json is a list of strings
    of the form KEY=VALUE. *)
Module Environment.

(** Modelled from the spec: common::parseEnvironmentVariable
    (common/Utility.cpp is not among the sources), for the entries
    KEY=VALUE of process.env: the key is what precedes the first '=', the
    value what follows it; an entry without '=' is an error. *)
Fixpoint parseEnvironmentVariable (variable : string) : option (string * string) :=
  match variable with
  | EmptyString => None
  | String c rest =>
      if Ascii.eqb c "="%char then Some (EmptyString, rest)
      else match parseEnvironmentVariable rest with
           | Some (key, value) => Some (String c key, value)
           | None => None
           end
  end.

(** Modelled from the spec: [lookupEnv(name)] of the shared hook runtime
    ("lookupEnv(name) in the container's process.env"): the value of the
    first entry with that key. *)
Fixpoint lookupEnv (name : string) (env : list string) : option string :=
  match env with
  | [] => None
  | variable :: rest =>
      match parseEnvironmentVariable variable with
      | Some (key, value) =>
          if decide (key = name) then Some value else lookupEnv name rest
      | None => lookupEnv name rest
      end
  end.

End Environment.

(** ** The Slurm global synchronisation hook

    The class hooks::slurm_global_sync::Hook is defined in
    hooks/slurm_global_sync/Hook.hpp and Hook.cpp, which are not among the
    sources; the test of the hook is. The model follows sections 3, 4.9 and
    6 of the spec: the rendezvous directory
    <localRepo>/slurm_global_sync/slurm-jobid-<J>-stepid-<S>/ with its
    subdirectories arrival and departure, the activation condition, and the
    operations of the hook. *)
Module SlurmGlobalSync.
Import Text Environment.

(** A directory: its entries, by name, with the owner (uid, gid) of each. *)
Abbreviation directory := (list (string * (Z * Z))).

Definition file_exists (name : string) (dir : directory) : bool :=
  bool_decide (name ∈ dir.*1).

(** Modelled from the spec: common::createFileIfNecessary
    (common/Utility.cpp is not among the sources), "create-if-not-exists":
    an existing file is left as it is, a new one belongs to the given
    owner. *)
Definition createFileIfNecessary (name : string) (owner : Z * Z)
    (dir : directory) : directory :=
  if file_exists name dir then dir else dir ++ [(name, owner)].

(** Modelled from the spec: the "directory entry count". *)
Definition countFilesInDirectory (dir : directory) : nat := length dir.

Record SyncDir : Type := { arrival : directory; departure : directory }.

(** The directory <localRepo>/slurm_global_sync: the rendezvous directories
    of the job steps, by name. *)
Abbreviation repository := (gmap string SyncDir).

Record Hook : Type :=
  { isHookEnabled : bool;
    slurmJobID : string;
    slurmStepID : string;
    slurmProcID : string;
    slurmNTasks : string;
    userIdentity : Z * Z }.

(** Modelled from the spec: the activation condition of the hook (Hook.cpp
    is not among the sources): the entry SARUS_SLURM_GLOBAL_SYNC_HOOK=1 is
    present in process.env and the four Slurm variables are set. *)
Definition activation (env : list string) : Prop :=
  "SARUS_SLURM_GLOBAL_SYNC_HOOK=1" ∈ env /\
  is_Some (lookupEnv "SLURM_JOB_ID" env) /\
  is_Some (lookupEnv "SLURM_STEPID" env) /\
  is_Some (lookupEnv "SLURM_PROCID" env) /\
  is_Some (lookupEnv "SLURM_NTASKS" env).

Definition disabled_hook (user : Z * Z) : Hook :=
  {| isHookEnabled := false;
     slurmJobID := EmptyString; slurmStepID := EmptyString;
     slurmProcID := EmptyString; slurmNTasks := EmptyString;
     userIdentity := user |}.

(** Modelled from the spec: the constructor Hook::Hook (Hook.cpp is not
    among the sources), from process.env and for the invoking user. The hook
    is enabled when the activation condition holds. *)
Definition new_Hook (env : list string) (user : Z * Z) : Hook :=
  if bool_decide ("SARUS_SLURM_GLOBAL_SYNC_HOOK=1" ∈ env) then
    match lookupEnv "SLURM_JOB_ID" env, lookupEnv "SLURM_STEPID" env,
          lookupEnv "SLURM_PROCID" env, lookupEnv "SLURM_NTASKS" env with
    | Some jobID, Some stepID, Some procID, Some nTasks =>
        {| isHookEnabled := true;
           slurmJobID := jobID; slurmStepID := stepID;
           slurmProcID := procID; slurmNTasks := nTasks;
           userIdentity := user |}
    | _, _, _, _ => disabled_hook user
    end
  else disabled_hook user.

(** slurm-jobid-<J>-stepid-<S> *)
Definition syncDir (this : Hook) : string :=
  "slurm-jobid-" +:+ slurmJobID this +:+ "-stepid-" +:+ slurmStepID this.

(** slurm-procid-<P> *)
Definition syncFile (this : Hook) : string :=
  "slurm-procid-" +:+ slurmProcID this.

Definition empty_SyncDir : SyncDir := {| arrival := []; departure := [] |}.

(** Modelled from the spec: the rendezvous directory of the hook (Hook.cpp
    is not among the sources); its creation is idempotent, and a directory
    that does not exist yet has no entries. *)
Definition openSyncDir (this : Hook) (repo : repository) : SyncDir :=
  default empty_SyncDir (repo !! syncDir this).

(** Modelled from the spec: Hook::signalArrival (Hook.cpp is not among the
    sources): "create <sync>/arrival/slurm-procid-<P> owned by the invoking
    user; idempotent (create-if-not-exists)". *)
Definition signalArrival (this : Hook) (repo : repository) : repository :=
  let dir := openSyncDir this repo in
  <[syncDir this :=
      {| arrival :=
           createFileIfNecessary (syncFile this) (userIdentity this) (arrival dir);
         departure := departure dir |}]> repo.

(** Modelled from the spec: Hook::signalDeparture (Hook.cpp is not among
    the sources), the same for departure. *)
Definition signalDeparture (this : Hook) (repo : repository) : repository :=
  let dir := openSyncDir this repo in
  <[syncDir this :=
      {| arrival := arrival dir;
         departure :=
           createFileIfNecessary (syncFile this) (userIdentity this)
             (departure dir) |}]> repo.

(** Modelled from the spec: Hook::allInstancesArrived (Hook.cpp is not
    among the sources): "directory entry count in arrival/ equals
    SLURM_NTASKS". *)
Definition allInstancesArrived (this : Hook) (repo : repository) : bool :=
  bool_decide (Some (countFilesInDirectory (arrival (openSyncDir this repo)))
               = number (slurmNTasks this)).

(** Modelled from the spec: Hook::allInstancesDeparted (Hook.cpp is not
    among the sources), the same for departure. *)
Definition allInstancesDeparted (this : Hook) (repo : repository) : bool :=
  bool_decide (Some (countFilesInDirectory (departure (openSyncDir this repo)))
               = number (slurmNTasks this)).

(** Modelled from the spec: Hook::cleanupSyncDir (Hook.cpp is not among the
    sources): only the process with PROCID 0 removes the rendezvous
    directory. *)
Definition cleanupSyncDir (this : Hook) (repo : repository) : repository :=
  if decide (slurmProcID this = "0") then delete (syncDir this) repo else repo.

Inductive error : Type := Timeout.

(** Modelled from the spec: the wait of the hook (Hook.cpp is not among the
    sources), "a busy-poll with bounded sleep and a deadline": [condition]
    is tested; while it does not hold the hook sleeps, and the other
    processes of the job step act on the repository. [peers] lists what they
    do during each sleep before the deadline. *)
Fixpoint waitUntil (condition : repository -> bool)
    (peers : list (repository -> repository)) (repo : repository)
    : (error + unit) * list (repository -> repository) * repository :=
  if condition repo then (inr tt, peers, repo)
  else match peers with
       | [] => (inl Timeout, [], repo)
       | step :: later => waitUntil condition later (step repo)
       end.

(** Modelled from the spec: Hook::performSynchronization (Hook.cpp is not
    among the sources), the state machine INIT, ARRIVED, ALL_ARRIVED,
    DEPARTED, ALL_DEPARTED; a hook that is not enabled returns at once. *)
Definition performSynchronization (this : Hook)
    (peers : list (repository -> repository)) (repo : repository)
    : (error + unit) * repository :=
  if negb (isHookEnabled this) then (inr tt, repo)
  else
    let arrived := signalArrival this repo in
    match waitUntil (allInstancesArrived this) peers arrived with
    | (inl e, _, repo') => (inl e, repo')
    | (inr _, peers', allArrived) =>
        let departed := signalDeparture this allArrived in
        match waitUntil (allInstancesDeparted this) peers' departed with
        | (r, _, repo') => (r, repo')
        end
    end.

End SlurmGlobalSync.

(** ** The SSH hook and its test *)
Module Ssh.
Import Environment Text.

(** [boost::filesystem::perms] *)
Definition owner_read : Z := octal [0;4;0;0].
Definition owner_write : Z := octal [0;2;0;0].
Definition owner_exe : Z := octal [0;1;0;0].
Definition owner_all : Z := octal [0;7;0;0].
Definition group_read : Z := octal [0;0;4;0].
Definition others_read : Z := octal [0;0;0;4].

Record file : Type := { contents : string; permissions : Z }.

(** The files of the container, by their path below the root filesystem. *)
Abbreviation rootfs := (gmap string file).

Definition environmentFile : string := "opt/oci-hooks/dropbear/environment".
Definition etcProfileModule : string := "etc/profile.d/ssh-hook.sh".

(** *** src/hooks/ssh/test/test_SSHHook.cpp

    A check of the test passes, fails (a CHECK does not hold or an exception
    is thrown) or is undefined (a vector is indexed out of range). *)
Inductive verdict : Type := Passed | Failed | Undefined.

(** What stops a check. *)
Inductive stop : Type := CheckFailed | OutOfRange.

Definition stopped (why : stop) : verdict :=
  match why with CheckFailed => Failed | OutOfRange => Undefined end.

Definition CHECK (condition : bool) (then_ : verdict) : verdict :=
  if condition then then_ else Failed.

(** The loop that fills [expectedMap]; [parseEnvironmentVariable] throws on
    an entry without '='. *)
Fixpoint expectedMap (variables : list string) (map : gmap string string)
    : option (gmap string string) :=
  match variables with
  | [] => Some map
  | variable :: rest =>
      match parseEnvironmentVariable variable with
      | Some (key, value) => expectedMap rest (<[key := value]> map)
      | None => None
      end
  end.

(** The body of the loop over the lines that follow the shebang: the key
    and the value read from one line. *)
Definition parseExportLine (actualLine : string) : stop + (string * string) :=
  let tokens := split " " actualLine in
  match tokens !! 0%nat with
  | None => inl OutOfRange
  | Some token0 =>
      if negb (String.eqb token0 "export") then inl CheckFailed
      else
        match tokens !! 1%nat with
        | None => inl OutOfRange
        | Some token1 =>
            let keyValue := split "=" token1 in
            match keyValue !! 0%nat, keyValue !! 1%nat with
            | Some key, Some quoted =>
                (* remove first and last double-quotes *)
                let size := Z.of_nat (String.length quoted) in
                match substr quoted 1 (size_t (size - 2)) with
                | Some value => inr (key, value)
                | None => inl CheckFailed
                end
            | _, _ => inl OutOfRange
            end
        end
  end.

Fixpoint actualMap (actualLines : list string) (map : gmap string string)
    : stop + gmap string string :=
  match actualLines with
  | [] => inr map
  | actualLine :: rest =>
      match parseExportLine actualLine with
      | inl v => inl v
      | inr (key, value) => actualMap rest (<[key := value]> map)
      end
  end.

Definition checkContainerHasEnvironmentFile (container : rootfs)
    (environmentVariablesInContainer : list string) : verdict :=
  match container !! environmentFile with
  | None => Failed
  | Some targetFile =>
      match expectedMap environmentVariablesInContainer ∅ with
      | None => Failed
      | Some expected =>
          let actualLines := getlines (contents targetFile) in
          CHECK (bool_decide (head actualLines = Some "#!/bin/sh"))
            match actualMap (tail actualLines) ∅ with
            | inl why => stopped why
            | inr actual =>
                CHECK (bool_decide (actual = expected))
                  (let expectedPermissions :=
                     Z.lor owner_all (Z.lor group_read others_read) in
                   CHECK (permissions targetFile =? expectedPermissions)
                     Passed)
            end
      end
  end.

Definition expectedScript : string :=
  unlines
    ["#!/bin/sh";
     "if [ " +:+ String double_quote "$SSH_CONNECTION"
       +:+ String double_quote " ]; then";
     "    . /opt/oci-hooks/dropbear/environment";
     "fi"].

Definition checkContainerHasEtcProfileModule (container : rootfs) : verdict :=
  match container !! etcProfileModule with
  | None => Failed
  | Some targetFile =>
      CHECK (String.eqb (contents targetFile) expectedScript)
        (let expectedPermissions :=
           Z.lor (Z.lor owner_read owner_write) (Z.lor group_read others_read) in
         CHECK (permissions targetFile =? expectedPermissions) Passed)
  end.

(** *** The hook

    SshHook::startSshDaemon is defined in hooks/ssh/SshHook.cpp, which is
    not among the sources. The model has steps 5 and 6 of section 4.10 of
    the spec: the file /etc/profile.d/ssh-hook.sh that sources the
    environment file when $SSH_CONNECTION is set, and the file
    /opt/oci-hooks/dropbear/environment, of mode 0644, with a line
    export KEY="VALUE" for each entry of process.env. The other steps
    (mounts, keys, the ssh wrapper, the daemon) do not touch the two files.
    Where the spec is silent (the text of the script and the mode of
    /etc/profile.d/ssh-hook.sh) the model has what the test of the hook
    expects. For the mode of the environment file the two differ: the spec
    says 0644, [checkContainerHasEnvironmentFile]
    owner_all | group_read | others_read; the model follows the spec. *)

(** Modelled from the spec: a line of the environment file (SshHook.cpp is
    not among the sources), export KEY="VALUE". *)
Definition exportLine (key value : string) : string :=
  "export " +:+ key +:+ "=" +:+ String double_quote value
  +:+ String double_quote EmptyString.

(** Modelled from the spec: the lines of the environment file (SshHook.cpp
    is not among the sources), one for each entry of process.env; an entry
    that is not of the form KEY=VALUE is an error. *)
Fixpoint exportLines (env : list string) : option (list string) :=
  match env with
  | [] => Some []
  | variable :: rest =>
      match parseEnvironmentVariable variable, exportLines rest with
      | Some (key, value), Some lines => Some (exportLine key value :: lines)
      | _, _ => None
      end
  end.

(** Modelled from the spec: the script of step 5 (SshHook.cpp is not among
    the sources), which "sources /opt/oci-hooks/dropbear/environment when
    $SSH_CONNECTION is set": the variable that guards it and the file that
    it sources. *)
Record profile_script : Type := { guard : string; sourced : string }.

Definition sshHookScript : profile_script :=
  {| guard := "SSH_CONNECTION"; sourced := "/" +:+ environmentFile |}.



(** The text of the script; the spec does not give it, it is written as
    [checkContainerHasEtcProfileModule] expects it. *)
Definition scriptText (script : profile_script) : string :=
  unlines
    ["#!/bin/sh";
     "if [ " +:+ String double_quote ("$" +:+ guard script)
       +:+ String double_quote " ]; then";
     "    . " +:+ sourced script;
     "fi"].

(** Modelled from the spec: step 5 of SshHook::startSshDaemon (SshHook.cpp
    is not among the sources). The spec gives no mode for the file: it has
    the mode that [checkContainerHasEtcProfileModule] expects. *)
Definition createEtcProfileModule (container : rootfs) : rootfs :=
  <[etcProfileModule :=
      {| contents := scriptText sshHookScript;
         permissions :=
           Z.lor (Z.lor owner_read owner_write)
             (Z.lor group_read others_read) |}]> container.

(** Modelled from the spec: step 6 of SshHook::startSshDaemon (SshHook.cpp
    is not among the sources), "Write /opt/oci-hooks/dropbear/environment
    from process.env as export KEY="VALUE" lines (mode 0644)"; the file
    starts with the line #!/bin/sh (scenario S5). *)
Definition createEnvironmentFile (env : list string)
    (container : rootfs) : option rootfs :=
  match exportLines env with
  | Some lines =>
      Some (<[environmentFile :=
                {| contents := unlines ("#!/bin/sh" :: lines);
                   permissions := octal [0;6;4;4] |}]>
              container)
  | None => None
  end.

(** Modelled from the spec: SshHook::startSshDaemon (SshHook.cpp is not
    among the sources), steps 5 and 6. *)
Definition startSshDaemon (env : list string) (container : rootfs)
    : option rootfs :=
  createEnvironmentFile env (createEtcProfileModule container).

End Ssh.

(** ** The glibc hook

    src/hooks/glibc/GlibcHook.hpp declares the class hooks::glibc::GlibcHook;
    its member functions are defined in GlibcHook.cpp, which is not among
    the sources, and are modelled after the algorithm of section 4.8 of the
    spec. What ldconfig and readelf report about a library is part of the
    file: its SONAME, whether it is a 64-bit object, its machine, and the GNU
    version string of a glibc. *)
Module Glibc.
Import Text.

Record library : Type :=
  { soname : string;
    is64bit : bool;
    machine : string;
    gnu_version : option string }.

(** A file: its bytes and, for a shared library, what readelf reports. *)
Record file : Type := { bytes : string; elf : option library }.

(** The root filesystem of the container: its files by path, and the host
    files that are bind-mounted over paths of the container. *)
Record rootfs : Type :=
  { files : gmap string file;
    bind_mounts : gmap string file }.

Record GlibcHook : Type :=
  { rootfsDir : rootfs;
    (** the libraries of the host named by the environment of the hook *)
    hostLibraries : list (string * file);
    (** the 64-bit libraries of the container *)
    containerLibraries : list (string * file) }.

Inductive error : Type :=
| HostLibcNotFound
| VersionNotParsed
| NotABICompatible.

Definition is64bitLibrary (f : file) : bool :=
  match elf f with
  | Some lib => is64bit lib
  | None => false
  end.

(** Modelled from the spec: GlibcHook::get64bitContainerLibraries
    (GlibcHook.cpp is not among the sources): the 64-bit libraries under the
    root filesystem. *)
Definition get64bitContainerLibraries (container : rootfs) : list (string * file) :=
  filter (fun entry => is64bitLibrary entry.2 = true)
    (map_to_list (files container)).

Definition isLibc (f : file) : bool :=
  match elf f with
  | Some lib => String.eqb (soname lib) "libc.so.6"
  | None => false
  end.

(** Modelled from the spec: GlibcHook::findLibc (GlibcHook.cpp is not among
    the sources): the library whose SONAME is libc.so.6. *)
Definition findLibc (libs : list (string * file)) : option (string * file) :=
  head (filter (fun entry => isLibc entry.2 = true) libs).

(** Modelled from the spec: GlibcHook::containerHasGlibc (GlibcHook.cpp is
    not among the sources): there is a 64-bit libc in the container. *)
Definition containerHasGlibc (this : GlibcHook) : bool :=
  if findLibc (containerLibraries this) is Some _ then true else false.

(** Modelled from the spec: the parsing of the GNU version string
    (GlibcHook.cpp is not among the sources), a version MAJOR.MINOR. *)
Definition parseVersion (f : file) : option (nat * nat) :=
  match elf f ≫= gnu_version with
  | Some version =>
      match split "." version with
      | [major; minor] =>
          match number major, number minor with
          | Some a, Some b => Some (a, b)
          | _, _ => None
          end
      | _ => None
      end
  | None => None
  end.

(** Modelled from the spec: the order on versions, by major then minor
    number. *)
Definition version_le (v w : nat * nat) : bool :=
  (v.1 <? w.1)%nat || ((v.1 =? w.1)%nat && (v.2 <=? w.2)%nat).

(** Modelled from the spec: GlibcHook::containerGlibcIsNewerOrSame
    (GlibcHook.cpp is not among the sources): the version of the container's
    glibc is at least that of the host's. *)
Definition containerGlibcIsNewerOrSame (hostLibc containerLibc : file)
    : error + bool :=
  match parseVersion hostLibc, parseVersion containerLibc with
  | Some host, Some container => inr (version_le host container)
  | _, _ => inl VersionNotParsed
  end.

(** Modelled from the spec:
    GlibcHook::verifyThatHostAndContainerGlibcAreABICompatible (GlibcHook.cpp
    is not among the sources): both are glibc, both are 64-bit, both are for
    the same machine. *)
Definition verifyThatHostAndContainerGlibcAreABICompatible
    (hostLibc containerLibc : file) : error + unit :=
  match elf hostLibc, elf containerLibc with
  | Some host, Some container =>
      if bool_decide (is_Some (gnu_version host))
         && bool_decide (is_Some (gnu_version container))
         && is64bit host && is64bit container
         && String.eqb (machine host) (machine container)
      then inr tt else inl NotABICompatible
  | _, _ => inl NotABICompatible
  end.

Definition fileName (f : file) : string :=
  match elf f with Some lib => soname lib | None => EmptyString end.

(** Modelled from the spec: the host library that matches a library of the
    container (GlibcHook.cpp is not among the sources), by name. *)
Definition matchingHostLibrary (this : GlibcHook) (containerLib : file)
    : option file :=
  snd <$> head (filter (fun entry => fileName entry.2 = fileName containerLib)
                  (hostLibraries this)).

(** Modelled from the spec: the replacement of one library (GlibcHook.cpp
    is not among the sources): the original is moved to .sarus.bak.<name>,
    then the host file is bind-mounted over its path. *)
Definition replaceLibrary (path : string) (original hostLib : file)
    (container : rootfs) : rootfs :=
  {| files :=
       <[".sarus.bak." +:+ fileName original := original]>
         (delete path (files container));
     bind_mounts := <[path := hostLib]> (bind_mounts container) |}.

(** Modelled from the spec: GlibcHook::replaceGlibcLibrariesInContainer
    (GlibcHook.cpp is not among the sources): each library of the container
    that has a matching host library is replaced. *)
Definition replaceGlibcLibrariesInContainer (this : GlibcHook) : rootfs :=
  foldl
    (fun container entry =>
       match matchingHostLibrary this entry.2 with
       | Some hostLib => replaceLibrary entry.1 entry.2 hostLib container
       | None => container
       end)
    (rootfsDir this) (containerLibraries this).

(** Modelled from the spec: GlibcHook::injectGlibcLibrariesIfNecessary
    (GlibcHook.cpp is not among the sources), entered with the container's
    root filesystem and the host libraries; it returns the root filesystem
    that it leaves. *)
Definition injectGlibcLibrariesIfNecessary (container : rootfs)
    (host : list (string * file)) : (error + unit) * rootfs :=
  let this :=
    {| rootfsDir := container;
       hostLibraries := host;
       containerLibraries := get64bitContainerLibraries container |} in
  if negb (containerHasGlibc this) then (inr tt, container)
  else
    match findLibc (hostLibraries this), findLibc (containerLibraries this) with
    | None, _ => (inl HostLibcNotFound, container)
    | Some _, None => (inr tt, container)
    | Some (_, hostLibc), Some (_, containerLibc) =>
        match containerGlibcIsNewerOrSame hostLibc containerLibc with
        | inl e => (inl e, container)
        | inr true => (inr tt, container)
        | inr false =>
            match verifyThatHostAndContainerGlibcAreABICompatible
                    hostLibc containerLibc with
            | inl e => (inl e, container)
            | inr _ => (inr tt, replaceGlibcLibrariesInContainer this)
            end
        end
    end.

End Glibc.

(** * Theorems *)

Module SecurityChecksFacts.
Import Error Filesystem SecurityChecks.

(** POSIX mode bits (sys/stat.h). *)
Definition S_IWGRP : Z := octal [0;0;2;0].
Definition S_IWOTH : Z := octal [0;0;0;2].

Section WithFilesystem.
Variable fs : filesystem.

(** *** The monad *)

Lemma outcome_bind {A B : Type} (m : Checks A) (k : A -> Checks B) :
  outcome (m ≫= k) =
  match outcome m with inl e => inl e | inr a => outcome (k a) end.
Proof.
  destruct m as [t [e|a]]; [reflexivity|].
  unfold outcome, mbind, Checks_bind; simpl. now destruct (k a).
Qed.

Lemma performed_bind {A B : Type} (m : Checks A) (k : A -> Checks B) :
  performed (m ≫= k) =
  performed m ++ match outcome m with inl _ => [] | inr a => performed (k a) end.
Proof.
  destruct m as [t [e|a]]; unfold performed, outcome, mbind, Checks_bind; simpl.
  - now rewrite app_nil_r.
  - now destruct (k a).
Qed.

Lemma outcome_unit (m : Checks unit) : succeeds m \/ fails m.
Proof.
  unfold succeeds, fails. destruct (outcome m) as [e|[]]; eauto.
Qed.

Lemma fails_iff_not_succeeds (m : Checks unit) : fails m <-> ~ succeeds m.
Proof.
  unfold succeeds, fails. destruct (outcome m) as [e|[]]; split.
  - intros _ H; discriminate.
  - eauto.
  - intros [e H]; discriminate.
  - intros H; now destruct H.
Qed.

Lemma succeeds_bind (m : Checks unit) (k : unit -> Checks unit) :
  succeeds (m ≫= k) <-> succeeds m /\ succeeds (k tt).
Proof.
  unfold succeeds. rewrite outcome_bind.
  destruct (outcome m) as [e|[]]; split; try tauto; try easy.
Qed.

Lemma succeeds_for_each {A : Type} (body : A -> Checks unit) (range : list A) :
  succeeds (for_each body range) <-> forall x, x ∈ range -> succeeds (body x).
Proof.
  induction range as [|x range IH]; simpl.
  - split; [intros _ y Hy; inversion Hy | reflexivity].
  - rewrite succeeds_bind, IH. split.
    + intros [Hx Hr] y Hy. apply elem_of_cons in Hy as [->|Hy]; auto.
    + intros H. split; [|intros y Hy]; apply H; constructor; auto.
Qed.

(** *** The two primitive checks *)

Definition root_owned (p : path) : Prop :=
  exists n, resolve fs p = Some n /\ node_uid n = 0.

Definition group_or_world_writable (p : path) : Prop :=
  Z.land (status_permissions fs p) S_IWGRP <> 0 \/
  Z.land (status_permissions fs p) S_IWOTH <> 0.

Lemma outcome_checkThatPathIsRootOwned p :
  outcome (checkThatPathIsRootOwned fs p) =
  match getOwner fs p with
  | inl e => inl (SARUS_RETHROW_ERROR e (FailedToCheckPathIsUntamperable p))
  | inr (uid, gid) =>
      if bool_decide (uid <> 0)
      then inl (SARUS_THROW_ERROR (PathMustBeOwnedByRoot p uid gid))
      else inr tt
  end.
Proof.
  unfold checkThatPathIsRootOwned. rewrite outcome_bind. simpl.
  destruct (getOwner fs p) as [e|[uid gid]]; [reflexivity|].
  now destruct (bool_decide (uid <> 0)).
Qed.

Lemma succeeds_checkThatPathIsRootOwned p :
  succeeds (checkThatPathIsRootOwned fs p) <-> root_owned p.
Proof.
  unfold succeeds, root_owned. rewrite outcome_checkThatPathIsRootOwned.
  unfold getOwner. destruct (resolve fs p) as [n|].
  - case_bool_decide as Hu; split.
    + discriminate.
    + intros (n' & [= <-] & Hn). contradiction.
    + intros _. exists n. split; [reflexivity | lia].
    + reflexivity.
  - split; [discriminate | intros (n & [=] & _)].
Qed.

Lemma outcome_checkThatPathIsNotGroupWritableOrWorldWritable p :
  outcome (checkThatPathIsNotGroupWritableOrWorldWritable fs p) =
  if bool_decide (Z.land (status_permissions fs p) (Z.shiftl 1 4) <> 0)
     || bool_decide (Z.land (status_permissions fs p) (Z.shiftl 1 1) <> 0)
  then inl (SARUS_THROW_ERROR (PathCannotBeGroupOrWorldWritable p))
  else inr tt.
Proof.
  unfold checkThatPathIsNotGroupWritableOrWorldWritable.
  rewrite outcome_bind. simpl.
  now destruct (_ || _).
Qed.

Lemma fails_checkThatPathIsNotGroupWritableOrWorldWritable p :
  fails (checkThatPathIsNotGroupWritableOrWorldWritable fs p) <->
  group_or_world_writable p.
Proof.
  unfold fails, group_or_world_writable.
  rewrite outcome_checkThatPathIsNotGroupWritableOrWorldWritable.
  change (Z.shiftl 1 4) with S_IWGRP. change (Z.shiftl 1 1) with S_IWOTH.
  do 2 case_bool_decide; simpl; split; eauto; try tauto.
  intros [e He]; discriminate.
Qed.

Lemma land_bit_testbit (mode : Z) (k : Z) :
  0 <= k -> Z.land mode (Z.shiftl 1 k) <> 0 <-> Z.testbit mode k = true.
Proof.
  intros Hk. rewrite Z.shiftl_1_l. split.
  - intros H. destruct (Z.testbit mode k) eqn:E; [reflexivity|].
    exfalso. apply H. apply Z.bits_inj'. intros i Hi.
    rewrite Z.land_spec, Z.bits_0.
    destruct (Z.eq_dec i k) as [->|Hne].
    + now rewrite E.
    + rewrite Z.pow2_bits_false by lia. apply andb_false_r.
  - intros H Hz.
    assert (Z.testbit (Z.land mode (2 ^ k)) k = true) as Hb.
    { rewrite Z.land_spec, H, Z.pow2_bits_true by lia. reflexivity. }
    rewrite Hz, Z.bits_0 in Hb. discriminate.
Qed.

(** C2. The check on group and world writability fails exactly when the
    permission mode of the path has the POSIX group-write bit S_IWGRP (octal
    0020) or world-write bit S_IWOTH (octal 0002), that is bit 4 or bit 1 of
    the mode, and succeeds for every other mode: the masks [1 << 4] and
    [1 << 1] of the code are these two constants. *)
Theorem C2_write_masks_are_the_posix_bits (p : path) :
  Z.shiftl 1 4 = S_IWGRP /\ Z.shiftl 1 1 = S_IWOTH /\
  (fails (checkThatPathIsNotGroupWritableOrWorldWritable fs p) <->
   Z.land (status_permissions fs p) S_IWGRP <> 0 \/
   Z.land (status_permissions fs p) S_IWOTH <> 0) /\
  (fails (checkThatPathIsNotGroupWritableOrWorldWritable fs p) <->
   Z.testbit (status_permissions fs p) 4 = true \/
   Z.testbit (status_permissions fs p) 1 = true) /\
  (succeeds (checkThatPathIsNotGroupWritableOrWorldWritable fs p) <->
   Z.land (status_permissions fs p) S_IWGRP = 0 /\
   Z.land (status_permissions fs p) S_IWOTH = 0).
Proof.
  pose proof (fails_checkThatPathIsNotGroupWritableOrWorldWritable p) as Hf.
  unfold group_or_world_writable in Hf.
  split; [reflexivity|]. split; [reflexivity|]. split; [exact Hf|]. split.
  - rewrite Hf. change S_IWGRP with (Z.shiftl 1 4).
    change S_IWOTH with (Z.shiftl 1 1).
    now rewrite !land_bit_testbit by lia.
  - pose proof (fails_iff_not_succeeds
                  (checkThatPathIsNotGroupWritableOrWorldWritable fs p)) as Hn.
    destruct (outcome_unit (checkThatPathIsNotGroupWritableOrWorldWritable fs p))
      as [Hs|Hfail].
    + split; [intros _|auto].
      destruct (Z.eq_dec (Z.land (status_permissions fs p) S_IWGRP) 0);
        destruct (Z.eq_dec (Z.land (status_permissions fs p) S_IWOTH) 0);
        try (split; assumption);
        exfalso; apply (proj1 Hn); try assumption; apply Hf; auto.
    + split; [intros Hs; now apply Hn in Hfail|].
      intros [Hg Hw]. apply Hf in Hfail as [?|?]; contradiction.
Qed.

(** *** An owner that cannot be determined *)

Lemma getOwner_not_found p :
  path_exists fs p = false ->
  getOwner fs p = inl (SARUS_THROW_ERROR (OwnerNotDetermined p)).
Proof.
  unfold path_exists, getOwner. now destruct (resolve fs p).
Qed.

Lemma outcome_checkParentPaths_first rootPath p e :
  outcome (checkThatPathIsRootOwned fs p) = inl e ->
  outcome (checkParentPaths fs rootPath p) = inl e.
Proof.
  intros H. rewrite checkParentPaths_equation_1, outcome_bind. now rewrite H.
Qed.

Lemma outcome_checkThatPathIsUntamperable_first p e :
  outcome (checkThatPathIsRootOwned fs p) = inl e ->
  outcome (checkThatPathIsUntamperable fs p) = inl e.
Proof.
  intros H. unfold checkThatPathIsUntamperable. rewrite outcome_bind.
  now rewrite (outcome_checkParentPaths_first _ _ _ H).
Qed.

(** C10. When the owner of a path cannot be determined, the check that the
    path is owned by root fails, with an error that carries the cause; so the
    check that a path is untamperable fails with that same error, and it
    fails in particular on a path that does not exist. *)
Theorem C10_undetermined_owner_is_an_error (p : path) :
  (forall cause, getOwner fs p = inl cause ->
     exists e,
       outcome (checkThatPathIsRootOwned fs p) = inl e /\
       outcome (checkThatPathIsUntamperable fs p) = inl e /\
       carries e cause) /\
  (path_exists fs p = false ->
     fails (checkThatPathIsRootOwned fs p) /\
     fails (checkThatPathIsUntamperable fs p)).
Proof.
  assert (forall cause, getOwner fs p = inl cause ->
     exists e,
       outcome (checkThatPathIsRootOwned fs p) = inl e /\
       outcome (checkThatPathIsUntamperable fs p) = inl e /\
       carries e cause) as Hcause.
  { intros cause Hc.
    exists (SARUS_RETHROW_ERROR cause (FailedToCheckPathIsUntamperable p)).
    assert (outcome (checkThatPathIsRootOwned fs p) =
            inl (SARUS_RETHROW_ERROR cause (FailedToCheckPathIsUntamperable p)))
      as Ho by (rewrite outcome_checkThatPathIsRootOwned; now rewrite Hc).
    split; [exact Ho|]. split.
    - now apply outcome_checkThatPathIsUntamperable_first.
    - now exists [FailedToCheckPathIsUntamperable p]. }
  split; [exact Hcause|].
  intros Hne. apply getOwner_not_found in Hne.
  destruct (Hcause _ Hne) as (e & H1 & H2 & _).
  split; exists e; assumption.
Qed.

(** *** The check that a path is untamperable *)

(** A path passes the two primitive checks. *)
Definition untampered (p : path) : Prop :=
  root_owned p /\ ~ group_or_world_writable p.

Lemma succeeds_both_checks p :
  succeeds (checkThatPathIsRootOwned fs p ;;
            checkThatPathIsNotGroupWritableOrWorldWritable fs p) <->
  untampered p.
Proof.
  rewrite succeeds_bind, succeeds_checkThatPathIsRootOwned.
  pose proof (fails_checkThatPathIsNotGroupWritableOrWorldWritable p) as Hw.
  pose proof (fails_iff_not_succeeds
                (checkThatPathIsNotGroupWritableOrWorldWritable fs p)) as Hn.
  pose proof (outcome_unit
                (checkThatPathIsNotGroupWritableOrWorldWritable fs p)) as Ho.
  unfold untampered. tauto.
Qed.

Lemma succeeds_primitive_checks p (k : Checks unit) :
  succeeds (checkThatPathIsRootOwned fs p ;;
            checkThatPathIsNotGroupWritableOrWorldWritable fs p ;; k) <->
  untampered p /\ succeeds k.
Proof.
  rewrite !succeeds_bind, succeeds_checkThatPathIsRootOwned.
  pose proof (fails_checkThatPathIsNotGroupWritableOrWorldWritable p) as Hw.
  pose proof (fails_iff_not_succeeds
                (checkThatPathIsNotGroupWritableOrWorldWritable fs p)) as Hn.
  pose proof (outcome_unit
                (checkThatPathIsNotGroupWritableOrWorldWritable fs p)) as Ho.
  unfold untampered. tauto.
Qed.

(** The paths that the do-while loop visits from [p]: [p] and its lexical
    parents, nearest first; the loop stops before the root directory of an
    absolute path and before the empty path. *)
Fixpoint prefixes (absolute : bool) (names : list string) (k : nat) : list path :=
  match k with
  | O => []
  | S k' => Path absolute (take k names) :: prefixes absolute names k'
  end.

Definition visited_paths (p : path) : list path :=
  match elems p with
  | [] => [p]
  | _ :: _ => prefixes (is_absolute p) (elems p) (length (elems p))
  end.

Lemma find_node_app n names names' m :
  find_node n (names ++ names') = Some m ->
  exists m', find_node n names = Some m'.
Proof.
  revert n. induction names as [|name names IH]; intros n H; simpl in *.
  - eauto.
  - destruct n as [|u g pm entries]; [discriminate|].
    destruct (entry name entries) as [child|]; [eauto | discriminate].
Qed.

Lemma take_S_snoc (names : list string) (k : nat) :
  (k < length names)%nat ->
  exists name, take (S k) names = take k names ++ [name].
Proof.
  intros Hk. destruct (lookup_lt_is_Some_2 names k Hk) as [name Hname].
  exists name. now apply take_S_r.
Qed.

Lemma path_exists_prefix absolute names k :
  (1 <= k < length names)%nat ->
  path_exists fs (Path absolute (take (S k) names)) = true ->
  path_exists fs (Path absolute (take k names)) = true.
Proof.
  intros Hk. destruct (take_S_snoc names k) as [name Hname]; [lia|].
  rewrite Hname. unfold path_exists, resolve. simpl.
  assert (take k names <> []) as Hne.
  { intros Hnil. apply (f_equal length) in Hnil.
    rewrite length_take_le in Hnil by lia. simpl in Hnil. lia. }
  destruct absolute.
  - destruct (find_node _ (take k names ++ [name])) as [m|] eqn:E; [|discriminate].
    apply find_node_app in E as [m' ->]. reflexivity.
  - destruct (take k names ++ [name]) as [|x l] eqn:E0; [discriminate|].
    rewrite <- E0.
    destruct (take k names) as [|y l'] eqn:E1; [done|]. rewrite <- E1.
    rewrite app_assoc.
    destruct (find_node _ ((current_path fs ++ take k names) ++ [name]))
      as [m|] eqn:E; [|discriminate].
    apply find_node_app in E as [m' ->]. reflexivity.
Qed.

Lemma untampered_exists p : untampered p -> path_exists fs p = true.
Proof.
  intros [(n & Hn & _) _]. unfold path_exists. now rewrite Hn.
Qed.

Lemma convoy_if {T : Type} (c : bool) (x y : T) :
  (if c as b return (c = b -> T) then fun _ => x else fun _ => y) eq_refl =
  if c then x else y.
Proof. now destruct c. Qed.

Lemma checkParentPaths_unfold rootPath p :
  checkParentPaths fs rootPath p =
  (checkThatPathIsRootOwned fs p ;;
   checkThatPathIsNotGroupWritableOrWorldWritable fs p ;;
   if loop_continues fs rootPath (parent_path p)
   then checkParentPaths fs rootPath (parent_path p)
   else mret tt).
Proof.
  rewrite checkParentPaths_equation_1 at 1. cbv zeta.
  now rewrite convoy_if.
Qed.

Lemma succeeds_mret : succeeds (mret tt).
Proof. reflexivity. Qed.

Lemma parent_path_take absolute names k :
  (k < length names)%nat ->
  parent_path (Path absolute (take (S k) names)) = Path absolute (take k names).
Proof.
  intros Hk. destruct (take_S_snoc names k Hk) as [name Hname].
  unfold parent_path. simpl elems. rewrite Hname.
  destruct (take k names ++ [name]) eqn:E; [now destruct (take k names)|].
  rewrite <- E, removelast_last. reflexivity.
Qed.

Lemma succeeds_checkParentPaths_prefixes absolute names k :
  (1 <= k <= length names)%nat ->
  succeeds (checkParentPaths fs (Path absolute []) (Path absolute (take k names)))
  <-> forall q, q ∈ prefixes absolute names k -> untampered q.
Proof.
  induction k as [|k IH]; [lia|]. intros Hk.
  rewrite checkParentPaths_unfold, succeeds_primitive_checks.
  rewrite parent_path_take by lia. simpl prefixes.
  destruct k as [|k].
  - (* the parent is the root path: the loop ends *)
    unfold loop_continues. simpl take at 2.
    rewrite bool_decide_eq_false_2 by (intros H; now apply H).
    rewrite andb_false_r. split.
    + intros [Hp _] q Hq. apply list_elem_of_singleton in Hq as ->. exact Hp.
    + intros H. split; [apply H; constructor | apply succeeds_mret].
  - assert (Path absolute (take (S k) names) <> Path absolute []) as Hroot.
    { intros [= E]. apply (f_equal length) in E.
      rewrite length_take_le in E by lia. discriminate. }
    unfold loop_continues. rewrite (bool_decide_eq_true_2 _ Hroot), andb_true_r.
    split.
    + intros [Hp Hrest] q Hq. apply elem_of_cons in Hq as [->|Hq]; [exact Hp|].
      apply untampered_exists in Hp.
      apply path_exists_prefix in Hp; [|lia]. rewrite Hp in Hrest.
      apply IH; [lia | exact Hrest | exact Hq].
    + intros H. assert (untampered (Path absolute (take (S (S k)) names))) as Hp
        by (apply H; constructor).
      split; [exact Hp|].
      apply untampered_exists in Hp.
      apply path_exists_prefix in Hp; [|lia]. rewrite Hp.
      apply IH; [lia|]. intros q Hq. apply H. now constructor.
Qed.

Lemma root_path_eq p : root_path p = Path (is_absolute p) [].
Proof. unfold root_path, empty_path. now destruct (is_absolute p). Qed.

Lemma succeeds_checkParentPaths p :
  succeeds (checkParentPaths fs (root_path p) p) <->
  forall q, q ∈ visited_paths p -> untampered q.
Proof.
  rewrite root_path_eq. destruct p as [absolute names]. unfold visited_paths.
  simpl is_absolute. simpl elems. destruct names as [|name names].
  - rewrite checkParentPaths_unfold, succeeds_primitive_checks.
    unfold parent_path, loop_continues. simpl. split.
    + intros [Hp _] q Hq. apply list_elem_of_singleton in Hq as ->. exact Hp.
    + intros H. split; [apply H; constructor | apply succeeds_mret].
  - rewrite <- (succeeds_checkParentPaths_prefixes absolute (name :: names)
                  (length (name :: names))) by (simpl; lia).
    now rewrite firstn_all.
Qed.

Lemma succeeds_checkThatPathIsUntamperable p :
  succeeds (checkThatPathIsUntamperable fs p) <->
  (forall q, q ∈ visited_paths p -> untampered q) /\
  (is_directory fs p = true ->
   forall d, d ∈ recursive_directory_iterator fs p -> untampered d).
Proof.
  unfold checkThatPathIsUntamperable. cbv zeta.
  rewrite succeeds_bind, succeeds_checkParentPaths.
  destruct (is_directory fs p).
  - rewrite succeeds_for_each. split.
    + intros [Hv Hd]. split; [exact Hv|]. intros _ d Hin.
      apply succeeds_both_checks. now apply Hd.
    + intros [Hv Hd]. split; [exact Hv|]. intros d Hin.
      apply succeeds_both_checks. now apply Hd.
  - split; [intros [Hv _]; split; [exact Hv | discriminate]|].
    intros [Hv _]. split; [exact Hv | apply succeeds_mret].
Qed.

Lemma prefixes_names absolute names k q :
  (k <= length names)%nat ->
  q ∈ prefixes absolute names k ->
  is_absolute q = absolute /\ elems q <> [] /\
  exists names', names = elems q ++ names'.
Proof.
  induction k as [|k IH]; simpl; intros Hk Hq; [inversion Hq|].
  apply elem_of_cons in Hq as [->|Hq]; [|apply IH; [lia | exact Hq]].
  simpl. split; [reflexivity|]. split.
  - destruct names; [simpl in Hk; lia | discriminate].
  - exists (drop (S k) names). symmetry. apply (take_drop (S k)).
Qed.

Lemma entry_elem_of name entries child :
  entry name entries = Some child -> (name, child) ∈ entries.
Proof.
  induction entries as [|[name' n] entries IH]; simpl; [discriminate|].
  destruct (decide (name = name')) as [->|Hne].
  - intros [= ->]. constructor.
  - intros H. constructor. now apply IH.
Qed.

(** Everything that exists below a directory is among its descendants. *)
Lemma descendants_complete n names m :
  names <> [] -> find_node n names = Some m -> names ∈ descendants n.
Proof.
  revert n. induction names as [|name names IH]; intros n Hne; [done|].
  simpl. destruct n as [|u g pm entries]; [discriminate|].
  destruct (entry name entries) as [child|] eqn:Hentry; [|discriminate].
  intros Hfind. apply entry_elem_of in Hentry.
  simpl. apply list_elem_of_In, in_flat_map. exists (name, child).
  split; [now apply list_elem_of_In|]. simpl.
  destruct names as [|name' names']; [now left|]. right.
  apply in_map, list_elem_of_In, IH; [discriminate | exact Hfind].
Qed.

Lemma find_node_app_inv n names names' m :
  find_node n (names ++ names') = Some m ->
  exists m', find_node n names = Some m' /\ find_node m' names' = Some m.
Proof.
  revert n. induction names as [|name names IH]; intros n H; simpl in *.
  - eauto.
  - destruct n as [|u g pm entries]; [discriminate|].
    destruct (entry name entries) as [child|]; [eauto | discriminate].
Qed.

Lemma recursive_directory_iterator_complete p names :
  names <> [] -> path_exists fs p = true ->
  path_exists fs (p / names) = true ->
  p / names ∈ recursive_directory_iterator fs p.
Proof.
  intros Hne Hp Hd. unfold recursive_directory_iterator.
  unfold path_exists in Hp, Hd.
  destruct (resolve fs p) as [n|] eqn:Hn; [|discriminate].
  destruct (resolve fs (p / names)) as [m|] eqn:Hm; [|discriminate].
  apply list_elem_of_fmap. exists names. split; [reflexivity|].
  apply (descendants_complete n names m Hne).
  unfold resolve in Hn, Hm. simpl in Hm. destruct (is_absolute p).
  - apply find_node_app_inv in Hm as (n' & Hn' & Hfind). congruence.
  - destruct (elems p) as [|x l] eqn:E; [discriminate|].
    rewrite <- E in *. destruct (elems p ++ names) eqn:E'; [discriminate|].
    rewrite <- E', app_assoc in Hm.
    apply find_node_app_inv in Hm as (n' & Hn' & Hfind). congruence.
Qed.

(** C1 (amended). The check that a path P is untamperable succeeds exactly
    when P and each lexical parent of P that the loop visits is owned by
    root and neither group- nor world-writable and, when P is a directory,
    so is everything below P; otherwise it fails. The paths visited are P
    and the non-empty prefixes of P as it is written: the root directory of
    an absolute path is not among them (unless P is the root directory
    itself), and for a relative path neither are the working directory and
    its ancestors. Everything that exists below a directory P is among the
    entries that are checked. *)
Theorem C1_untamperable_iff_visited_paths_untampered (p : path) :
  (succeeds (checkThatPathIsUntamperable fs p) <->
   (forall q, q ∈ visited_paths p -> untampered q) /\
   (is_directory fs p = true ->
    forall d, d ∈ recursive_directory_iterator fs p -> untampered d)) /\
  (fails (checkThatPathIsUntamperable fs p) <->
   ~ ((forall q, q ∈ visited_paths p -> untampered q) /\
      (is_directory fs p = true ->
       forall d, d ∈ recursive_directory_iterator fs p -> untampered d))) /\
  p ∈ visited_paths p /\
  (forall q, q ∈ visited_paths p ->
     q = p \/
     (is_absolute q = is_absolute p /\ elems q <> [] /\
      exists names, elems p = elems q ++ names)) /\
  (is_directory fs p = true ->
   forall names, names <> [] -> path_exists fs (p / names) = true ->
     p / names ∈ recursive_directory_iterator fs p).
Proof.
  split; [apply succeeds_checkThatPathIsUntamperable|].
  split; [rewrite fails_iff_not_succeeds;
          now rewrite succeeds_checkThatPathIsUntamperable|].
  assert (is_directory fs p = true ->
          forall names, names <> [] -> path_exists fs (p / names) = true ->
            p / names ∈ recursive_directory_iterator fs p) as Hbelow.
  { intros Hdir names Hne Hex.
    apply recursive_directory_iterator_complete; try assumption.
    unfold is_directory in Hdir. unfold path_exists.
    now destruct (resolve fs p). }
  revert Hbelow. destruct p as [absolute names]. unfold visited_paths. simpl.
  intros Hbelow.
  destruct names as [|name names]; (split; [|split; [|exact Hbelow]]).
  - constructor.
  - intros q Hq. left. now apply list_elem_of_singleton in Hq.
  - simpl prefixes. rewrite firstn_all. constructor.
  - intros q Hq. right. now apply prefixes_names in Hq.
Qed.

(** *** The claim with the root directory among the ancestors *)

(** Following the words of the spec, "path and every ancestor up to the
    filesystem root": the absolute form of the path, each directory above
    it, and the root directory. *)
Definition ancestors_up_to_root (p : path) : list path :=
  let names :=
    if is_absolute p then elems p else current_path fs ++ elems p in
  prefixes true names (length names) ++ [Path true []].

Definition C1_as_stated (p : path) : Prop :=
  ((exists q, q ∈ ancestors_up_to_root p /\ ~ untampered q) ->
   fails (checkThatPathIsUntamperable fs p)) /\
  ((forall q, q ∈ ancestors_up_to_root p -> untampered q) ->
   (succeeds (checkThatPathIsUntamperable fs p) <->
    (is_directory fs p = true ->
     forall d, d ∈ recursive_directory_iterator fs p -> untampered d))).

End WithFilesystem.

(** *** The checks run at start-up *)

Section WithConfig.
Variable config : Config.
Variable fs : filesystem.

(** The check that a path is untamperable succeeds. *)
Definition untamperable (p : path) : Prop :=
  succeeds (checkThatPathIsUntamperable fs p).

Lemma untampered_dec p : untampered fs p \/ ~ untampered fs p.
Proof.
  rewrite <- succeeds_both_checks, <- fails_iff_not_succeeds.
  apply outcome_unit.
Qed.

Lemma performed_checkThatPathIsRootOwned p :
  performed (checkThatPathIsRootOwned fs p) = [CheckedRootOwned p].
Proof.
  unfold checkThatPathIsRootOwned. rewrite performed_bind. simpl.
  destruct (getOwner fs p) as [e|[uid gid]]; [reflexivity|].
  now destruct (bool_decide (uid <> 0)).
Qed.

Lemma performed_checkThatPathIsNotGroupWritableOrWorldWritable p :
  performed (checkThatPathIsNotGroupWritableOrWorldWritable fs p) =
  [CheckedNotGroupWritableOrWorldWritable p].
Proof.
  unfold checkThatPathIsNotGroupWritableOrWorldWritable.
  rewrite performed_bind. simpl. now destruct (_ || _).
Qed.

(** The hooks of one type that the configuration lists. *)
Definition hooks_of (hookType : string) : list path :=
  default [] (OCIHooks config ≫= (fun hooks => hooks !! hookType)).

(** The paths swept when the security checks are enabled, in order. *)
Definition swept_paths : list path :=
  [mksquashfsPath config; initPath config; runcPath config]
  ++ hooks_of "prestart" ++ hooks_of "poststart" ++ hooks_of "poststop"
  ++ [prefixDir config / ["openssh"]; prefixDir config / ["bin"; "ssh_hook"]].

Lemma succeeds_try_catch_rethrow (m : Checks unit) (msg : message) :
  succeeds (try_catch m (fun e => throw (SARUS_RETHROW_ERROR e msg))) <->
  succeeds m.
Proof.
  unfold succeeds, outcome. destruct m as [t [e|[]]]; simpl; [|tauto].
  split; discriminate.
Qed.

Lemma succeeds_checkThatOCIHooksAreUntamperableByType hookType :
  succeeds (checkThatOCIHooksAreUntamperableByType config fs hookType) <->
  forall hook, hook ∈ hooks_of hookType -> untamperable hook.
Proof.
  unfold checkThatOCIHooksAreUntamperableByType, hooks_of.
  destruct (OCIHooks config ≫= _) as [hooks|]; simpl.
  - rewrite succeeds_for_each.
    split; intros H hook Hin; apply H in Hin;
      [now apply succeeds_try_catch_rethrow in Hin
      |now apply succeeds_try_catch_rethrow].
  - split; [intros _ hook Hin; inversion Hin | reflexivity].
Qed.

Lemma succeeds_checkThatOCIHooksAreUntamperable :
  succeeds (checkThatOCIHooksAreUntamperable config fs) <->
  forall hook,
    hook ∈ hooks_of "prestart" ++ hooks_of "poststart" ++ hooks_of "poststop" ->
    untamperable hook.
Proof.
  unfold checkThatOCIHooksAreUntamperable.
  destruct (OCIHooks config) as [hooks|] eqn:E.
  - rewrite !succeeds_bind,
      !succeeds_checkThatOCIHooksAreUntamperableByType.
    split.
    + intros (H1 & H2 & H3) hook Hin.
      apply elem_of_app in Hin as [Hin|Hin]; [now apply H1|].
      apply elem_of_app in Hin as [Hin|Hin]; [now apply H2 | now apply H3].
    + intros H. repeat split; intros hook Hin; apply H;
        rewrite !elem_of_app; tauto.
  - unfold hooks_of. rewrite E. simpl.
    split; [intros _ hook Hin; inversion Hin | reflexivity].
Qed.

(** What [runSecurityChecks] does after the weak checks when the security
    checks are enabled. *)
Definition sweeps : Checks unit :=
  checkThatBinariesInSarusJsonAreUntamperable config fs ;;
  checkThatOCIHooksAreUntamperable config fs ;;
  checkThatPathIsUntamperable fs (prefixDir config / ["openssh"]) ;;
  checkThatPathIsUntamperable fs (prefixDir config / ["bin"; "ssh_hook"]).

Lemma succeeds_sweeps :
  succeeds sweeps <-> forall p, p ∈ swept_paths -> untamperable p.
Proof.
  unfold sweeps, checkThatBinariesInSarusJsonAreUntamperable, swept_paths.
  rewrite !succeeds_bind, succeeds_checkThatOCIHooksAreUntamperable.
  repeat setoid_rewrite elem_of_app. repeat setoid_rewrite elem_of_cons.
  setoid_rewrite elem_of_nil. unfold untamperable.
  split.
  - intros ((H1 & H2 & H3) & Hh & H4 & H5) p Hp.
    destruct Hp as [[->|[->|[->|[]]]]|[Hp|[Hp|[Hp|[->|[->|[]]]]]]];
      try assumption; apply Hh; tauto.
  - intros H. repeat split; try (apply H; tauto).
    intros hook Hin. apply H. tauto.
Qed.

(** The primitive checks of the weak check of the two configuration
    files, in order. *)
Definition weak_checks (sarusInstallationPrefixDir : path) : list event :=
  let configFilename := sarusInstallationPrefixDir / ["etc"; "sarus.json"] in
  let configSchemaFilename :=
    sarusInstallationPrefixDir / ["etc"; "sarus.schema.json"] in
  [CheckedRootOwned configFilename;
   CheckedNotGroupWritableOrWorldWritable configFilename;
   CheckedRootOwned configSchemaFilename;
   CheckedNotGroupWritableOrWorldWritable configSchemaFilename].

End WithConfig.

(** *** Concrete filesystems *)

(** /usr/bin/mksquashfs and the directories above it belong to root and are
    writable by root only, but the root directory belongs to user 1000 and is
    writable by everyone. *)
Definition fs_root_directory_tampered : filesystem :=
  {| root_directory :=
       Dir 1000 1000 (octal [0;7;7;7])
         [("usr", Dir 0 0 (octal [0;7;5;5])
                    [("bin", Dir 0 0 (octal [0;7;5;5])
                               [("mksquashfs", File 0 0 (octal [0;7;5;5]))])])];
     current_path := [] |}.

(** The working directory /home/alice belongs to user 1000; the file tool in
    it belongs to root. *)
Definition fs_working_directory_of_user : filesystem :=
  {| root_directory :=
       Dir 0 0 (octal [0;7;5;5])
         [("home", Dir 0 0 (octal [0;7;5;5])
                     [("alice", Dir 1000 1000 (octal [0;7;5;5])
                                  [("tool", File 0 0 (octal [0;7;5;5]))])])];
     current_path := ["home"; "alice"] |}.

(** C1 (as stated) fails. The root directory is an ancestor of
    /usr/bin/mksquashfs, it is neither owned by root nor protected from
    writing, and the check of /usr/bin/mksquashfs succeeds. The working
    directory /home/alice is an ancestor of the relative path tool, it is
    not owned by root, and the check of tool succeeds: what is above a path
    as it is written is not looked at. *)
Lemma C1_counterexample_ancestors_that_are_not_checked :
  ~ C1_as_stated fs_root_directory_tampered
      (Path true ["usr"; "bin"; "mksquashfs"]) /\
  ~ C1_as_stated fs_working_directory_of_user (Path false ["tool"]).
Proof.
  split.
  - intros [Hfails _]. destruct Hfails as [e He].
    + exists (Path true []). split.
      * unfold ancestors_up_to_root. simpl. repeat constructor.
      * intros [(n & Hn & Hu) _]. vm_compute in Hn. injection Hn as <-.
        discriminate Hu.
    + vm_compute in He. discriminate He.
  - intros [Hfails _]. destruct Hfails as [e He].
    + exists (Path true ["home"; "alice"]). split.
      * unfold ancestors_up_to_root. simpl. repeat constructor.
      * intros [(n & Hn & Hu) _]. vm_compute in Hn. injection Hn as <-.
        discriminate Hu.
    + vm_compute in He. discriminate He.
Qed.

(** The path /usr/bin/unsquashfs does not exist. *)
Lemma C10_witness_nonexistent_path :
  fails (checkThatPathIsRootOwned fs_root_directory_tampered
           (Path true ["usr"; "bin"; "unsquashfs"])) /\
  fails (checkThatPathIsUntamperable fs_root_directory_tampered
           (Path true ["usr"; "bin"; "unsquashfs"])).
Proof.
  apply (C10_undetermined_owner_is_an_error fs_root_directory_tampered
           (Path true ["usr"; "bin"; "unsquashfs"])).
  reflexivity.
Defined.

(** An installation under /opt/sarus: everything belongs to root and is
    writable by root only, except the runc binary, which user 1000 owns. *)
Definition fs_installation : filesystem :=
  let dir := Dir 0 0 (octal [0;7;5;5]) in
  let binary := File 0 0 (octal [0;7;5;5]) in
  let text := File 0 0 (octal [0;6;4;4]) in
  {| root_directory :=
       dir [("opt", dir [("sarus", dir
               [("etc", dir [("sarus.json", text);
                             ("sarus.schema.json", text)]);
                ("bin", dir [("ssh_hook", binary)]);
                ("openssh", dir [("sshd", binary)])])]);
            ("usr", dir [("bin", dir
               [("mksquashfs", binary);
                ("init", binary);
                ("runc", File 1000 1000 (octal [0;7;5;5]))])])];
     current_path := [] |}.

Definition installation (enabled : bool) : Config :=
  {| mksquashfsPath := Path true ["usr"; "bin"; "mksquashfs"];
     initPath := Path true ["usr"; "bin"; "init"];
     runcPath := Path true ["usr"; "bin"; "runc"];
     OCIHooks :=
       Some {["prestart" := [Path true ["opt"; "sarus"; "bin"; "ssh_hook"]]]};
     securityChecks := enabled;
     prefixDir := Path true ["opt"; "sarus"] |}.

(** With the security checks disabled the run succeeds after the four weak
    checks; enabled, it goes on to the sweeps and fails on runc. *)
Example runSecurityChecks_on_installation :
  runSecurityChecks (installation false) fs_installation
    (Path true ["opt"; "sarus"])
  = (weak_checks (Path true ["opt"; "sarus"]), inr tt) /\
  outcome (runSecurityChecks (installation true) fs_installation
             (Path true ["opt"; "sarus"]))
  = inl [PathMustBeOwnedByRoot (Path true ["usr"; "bin"; "runc"]) 1000 1000].
Proof. split; vm_compute; reflexivity. Qed.

End SecurityChecksFacts.

Module CliFacts.
Import Error Cli.

Section Factory.
Variable Command : Type.
Variable CLIArguments : Type.
Variable Config : Type.
Variable construct : CommandType -> result Command.
Variable constructWithArguments :
  CommandType -> list CLIArguments -> Config -> result Command.

Definition Factory : Type :=
  CommandObjectsFactory Command CLIArguments Config.

(** The name is registered in both maps, for the same class. *)
Definition registered (this : Factory) (commandName : string) (T : CommandType) : Prop :=
  map this !! commandName = Some (fun _ => construct T) /\
  mapWithArguments this !! commandName =
    Some (fun commandArgsGroups config =>
            constructWithArguments T commandArgsGroups config).

Definition unregistered (this : Factory) (commandName : string) : Prop :=
  map this !! commandName = None /\
  mapWithArguments this !! commandName = None.

(** The invariant of the two maps: they have the same keys, and a key is
    bound to the two constructors of one class. *)
Definition maps_agree (this : Factory) : Prop :=
  forall commandName,
    unregistered this commandName \/ exists T, registered this commandName T.

Lemma maps_agree_empty : maps_agree empty_factory.
Proof. intros name. left. split; apply lookup_empty. Qed.

Lemma maps_agree_addCommand T commandName this :
  maps_agree this ->
  maps_agree (addCommand construct constructWithArguments T commandName this).
Proof.
  intros H name. unfold unregistered, registered, addCommand. simpl.
  destruct (decide (commandName = name)) as [->|Hne].
  - right. exists T. now rewrite !lookup_insert_eq.
  - rewrite !lookup_insert_ne by assumption. apply H.
Qed.

Lemma factory_maps_agree this :
  factory construct constructWithArguments this -> maps_agree this.
Proof.
  induction 1 as [|T name this _ IH].
  - unfold new_CommandObjectsFactory.
    repeat apply maps_agree_addCommand. apply maps_agree_empty.
  - now apply maps_agree_addCommand.
Qed.

Lemma isValidCommandName_registered this commandName T :
  registered this commandName T -> isValidCommandName this commandName = true.
Proof.
  intros [H _]. unfold isValidCommandName. rewrite H.
  apply bool_decide_eq_true. eauto.
Qed.

Lemma isValidCommandName_unregistered this commandName :
  unregistered this commandName -> isValidCommandName this commandName = false.
Proof.
  intros [H _]. unfold isValidCommandName. rewrite H.
  apply bool_decide_eq_false. now intros [? ?].
Qed.

End Factory.

(** *** A factory of commands whose constructors do not throw *)

(** A command object records its class and the arguments it was built
    with. *)
Definition built : Type := CommandType * option (list string).

Definition build (T : CommandType) : result built := Returned (T, None).

Definition buildWithArguments (T : CommandType)
    (commandArgsGroups : list string) (config : unit) : result built :=
  Returned (T, Some commandArgsGroups).

Definition sarus : CommandObjectsFactory built string unit :=
  new_CommandObjectsFactory build buildWithArguments.

Example sarus_run :
  makeCommandObject sarus "run" = Returned (CommandRun, None) /\
  makeCommandObjectWithArguments sarus "run" ["alpine"] tt
  = Returned (CommandRun, Some ["alpine"]) /\
  makeCommandObject sarus "frobnicate"
  = Thrown [InvalidCommandName "frobnicate"].
Proof. vm_compute. repeat split. Qed.

Example sarus_command_names :
  (list_to_set (getCommandNames sarus) : gset string) =
  list_to_set
    ["help"; "images"; "load"; "pull"; "rmi"; "run"; "ssh-keygen"; "version"]
  /\ length (getCommandNames sarus) = 8%nat.
Proof.
  split; [|vm_compute; reflexivity].
  apply (bool_decide_unpack _). vm_compute. exact I.
Qed.

End CliFacts.

Module SlurmGlobalSyncFacts.
Import Text Environment SlurmGlobalSync.

(** *** Directories *)

(** A directory has one entry per name. *)
Definition well_formed (dir : directory) : Prop := NoDup dir.*1.

Definition is_syncFile (name : string) : Prop :=
  String.prefix "slurm-procid-" name = true.

#[local] Instance is_syncFile_dec name : Decision (is_syncFile name).
Proof. unfold is_syncFile. apply _. Defined.

(** The slurm-procid-* files of a directory, as a set of names. *)
Definition slurm_procid_files (dir : directory) : gset string :=
  list_to_set (filter is_syncFile dir.*1).


Lemma file_exists_true name dir :
  file_exists name dir = true <-> name ∈ dir.*1.
Proof. unfold file_exists. apply bool_decide_eq_true. Qed.

Lemma file_exists_false name dir :
  file_exists name dir = false <-> name ∉ dir.*1.
Proof. unfold file_exists. apply bool_decide_eq_false. Qed.

Lemma createFileIfNecessary_exists name owner dir :
  file_exists name (createFileIfNecessary name owner dir) = true.
Proof.
  unfold createFileIfNecessary. destruct (file_exists name dir) eqn:E; [exact E|].
  apply file_exists_true. rewrite fmap_app. apply elem_of_app. right.
  simpl. constructor.
Qed.


Lemma createFileIfNecessary_well_formed name owner dir :
  well_formed dir -> well_formed (createFileIfNecessary name owner dir).
Proof.
  unfold well_formed, createFileIfNecessary. intros Hwf.
  destruct (file_exists name dir) eqn:E; [exact Hwf|].
  apply file_exists_false in E. rewrite fmap_app. apply NoDup_app.
  split; [exact Hwf|]. split; [|apply NoDup_singleton].
  intros x Hx Hx'. simpl in Hx'. apply list_elem_of_singleton in Hx' as ->.
  contradiction.
Qed.

Lemma createFileIfNecessary_names name owner dir x :
  x ∈ (createFileIfNecessary name owner dir).*1 <-> x ∈ dir.*1 \/ x = name.
Proof.
  unfold createFileIfNecessary. destruct (file_exists name dir) eqn:E.
  - apply file_exists_true in E. split; [auto|]. now intros [?| ->].
  - rewrite fmap_app, elem_of_app. simpl. now rewrite list_elem_of_singleton.
Qed.

Lemma createFileIfNecessary_new name owner dir :
  file_exists name dir = false ->
  (name, owner) ∈ createFileIfNecessary name owner dir.
Proof.
  intros E. unfold createFileIfNecessary. rewrite E.
  apply elem_of_app. right. constructor.
Qed.



(** *** The runs of a job step *)

(** The hooks of one job step: enabled, for the same job and step. *)
Definition same_job_step (this other : Hook) : Prop :=
  isHookEnabled other = true /\
  slurmJobID other = slurmJobID this /\ slurmStepID other = slurmStepID this.

(** The states of the repository in a run of the job step of [this]: at the
    start the rendezvous directory of the job step does not exist; then the
    processes of the job step signal their arrival and their departure, in
    any order; the directories of other job steps change freely. *)
Inductive run (this : Hook) : repository -> Prop :=
| run_start repo : repo !! syncDir this = None -> run this repo
| run_signalArrival other repo :
    run this repo -> same_job_step this other ->
    run this (signalArrival other repo)
| run_signalDeparture other repo :
    run this repo -> same_job_step this other ->
    run this (signalDeparture other repo)
| run_elsewhere name dir repo :
    run this repo -> name <> syncDir this -> run this (<[name := dir]> repo).

(** Only slurm-procid-* files, one per name. *)
Definition only_syncFiles (dir : directory) : Prop :=
  well_formed dir /\ Forall is_syncFile dir.*1.

Lemma is_syncFile_syncFile (this : Hook) : is_syncFile (syncFile this).
Proof.
  unfold is_syncFile, syncFile. cbv [String.append].
  now destruct (slurmProcID this).
Qed.

Lemma only_syncFiles_nil : only_syncFiles [].
Proof. split; constructor. Qed.

Lemma only_syncFiles_create (this : Hook) dir :
  only_syncFiles dir ->
  only_syncFiles
    (createFileIfNecessary (syncFile this) (userIdentity this) dir).
Proof.
  intros [Hwf Hall]. split; [now apply createFileIfNecessary_well_formed|].
  apply Forall_forall. intros x Hx.
  apply createFileIfNecessary_names in Hx as [Hx| ->].
  - rewrite Forall_forall in Hall. now apply Hall.
  - apply is_syncFile_syncFile.
Qed.

Lemma same_job_step_syncDir this other :
  same_job_step this other -> syncDir other = syncDir this.
Proof. intros (_ & HJ & HS). unfold syncDir. now rewrite HJ, HS. Qed.

Lemma run_only_syncFiles this repo :
  run this repo ->
  only_syncFiles (arrival (openSyncDir this repo)) /\
  only_syncFiles (departure (openSyncDir this repo)).
Proof.
  unfold openSyncDir. induction 1 as [repo Hnone|other repo _ IH Hsame
    |other repo _ IH Hsame|name dir repo _ IH Hne].
  - rewrite Hnone. simpl. split; apply only_syncFiles_nil.
  - pose proof (same_job_step_syncDir _ _ Hsame) as Hdir.
    unfold signalArrival, openSyncDir. rewrite Hdir, lookup_insert_eq. simpl.
    destruct IH as [IHa IHd]. split; [|exact IHd].
    now apply only_syncFiles_create.
  - pose proof (same_job_step_syncDir _ _ Hsame) as Hdir.
    unfold signalDeparture, openSyncDir. rewrite Hdir, lookup_insert_eq. simpl.
    destruct IH as [IHa IHd]. split; [exact IHa|].
    now apply only_syncFiles_create.
  - now rewrite lookup_insert_ne.
Qed.

Lemma size_slurm_procid_files dir :
  only_syncFiles dir ->
  size (slurm_procid_files dir) = countFilesInDirectory dir.
Proof.
  intros [Hwf Hall]. unfold slurm_procid_files, countFilesInDirectory.
  assert (filter is_syncFile dir.*1 = dir.*1) as ->.
  { clear Hwf. induction Hall as [|x l Hx _ IH]; [reflexivity|].
    now rewrite filter_cons_True, IH. }
  rewrite size_list_to_set by exact Hwf. apply length_fmap.
Qed.

(** C4. In every run of a job step with SLURM_NTASKS = N,
    [allInstancesArrived] is true if and only if there are exactly N
    distinct files arrival/slurm-procid-* in the rendezvous directory; and
    [allInstancesDeparted] is, if and only if there are exactly N distinct
    files departure/slurm-procid-*. *)
Theorem C4_all_instances_iff_N_sync_files (this : Hook) (repo : repository)
    (N : nat) (Hrun : run this repo)
    (HN : number (slurmNTasks this) = Some N) :
  (allInstancesArrived this repo = true <->
   size (slurm_procid_files (arrival (openSyncDir this repo))) = N) /\
  (allInstancesDeparted this repo = true <->
   size (slurm_procid_files (departure (openSyncDir this repo))) = N).
Proof.
  destruct (run_only_syncFiles this repo Hrun) as [Ha Hd].
  unfold allInstancesArrived, allInstancesDeparted.
  rewrite !bool_decide_eq_true, !size_slurm_procid_files, HN by assumption.
  split; split; congruence.
Qed.


(** *** Activation *)

Lemma new_Hook_enabled env user :
  isHookEnabled (new_Hook env user) = true <-> activation env.
Proof.
  unfold new_Hook, activation. case_bool_decide as Hvar.
  - destruct (lookupEnv "SLURM_JOB_ID" env) as [jobID|];
      [destruct (lookupEnv "SLURM_STEPID" env) as [stepID|];
       [destruct (lookupEnv "SLURM_PROCID" env) as [procID|];
        [destruct (lookupEnv "SLURM_NTASKS" env) as [nTasks|]|]|]|];
      simpl; split; try discriminate;
      try (intros (_ & H1 & H2 & H3 & H4);
           first [now destruct H1 | now destruct H2
                 | now destruct H3 | now destruct H4]);
      try reflexivity.
    intros _. repeat split; eauto.
  - simpl. split; [discriminate|]. now intros [? _].
Qed.

Lemma arrival_signalDeparture this repo :
  arrival (openSyncDir this (signalDeparture this repo)) =
  arrival (openSyncDir this repo).
Proof.
  unfold signalDeparture, openSyncDir at 1. now rewrite lookup_insert_eq.
Qed.

Lemma arrival_signalArrival this repo :
  arrival (openSyncDir this (signalArrival this repo)) =
  createFileIfNecessary (syncFile this) (userIdentity this)
    (arrival (openSyncDir this repo)).
Proof.
  unfold signalArrival, openSyncDir at 1. now rewrite lookup_insert_eq.
Qed.

(** C6. The hook takes part in a run if and only if the activation
    condition holds: SARUS_SLURM_GLOBAL_SYNC_HOOK=1 is in process.env and
    SLURM_JOB_ID, SLURM_STEPID, SLURM_PROCID and SLURM_NTASKS are set. When
    it does not hold, [performSynchronization] completes without error and
    leaves the repository as it is, whatever the other processes do; when it
    holds, the hook signals its arrival: left to itself, its arrival file
    exists afterwards. *)
Theorem C6_hook_participates_iff_activated (env : list string)
    (user : Z * Z) :
  let this := new_Hook env user in
  (isHookEnabled this = true <-> activation env) /\
  (~ activation env ->
   forall peers repo,
     performSynchronization this peers repo = (inr tt, repo)) /\
  (activation env ->
   forall repo,
     file_exists (syncFile this)
       (arrival (openSyncDir this (performSynchronization this [] repo).2))
     = true).
Proof.
  intros this. pose proof (new_Hook_enabled env user) as Henabled.
  fold this in Henabled. split; [exact Henabled|]. split.
  - intros Hnot peers repo. unfold performSynchronization.
    destruct (isHookEnabled this); [tauto | reflexivity].
  - intros Hact repo. apply Henabled in Hact.
    unfold performSynchronization. rewrite Hact. simpl.
    destruct (allInstancesArrived this (signalArrival this repo)); simpl.
    + destruct (allInstancesDeparted this _); simpl;
        rewrite arrival_signalDeparture, arrival_signalArrival;
        apply createFileIfNecessary_exists.
    + rewrite arrival_signalArrival. apply createFileIfNecessary_exists.
Qed.

(** *** The scenarios of test_hook.cpp *)

(** The entries that [createOCIBundleConfigJSON] adds to process.env. *)
Definition activation_variable : list string :=
  ["SARUS_SLURM_GLOBAL_SYNC_HOOK=1"].

Definition slurm_variables (procID : string) : list string :=
  ["SLURM_JOB_ID=256"; "SLURM_STEPID=32"; "SLURM_PROCID=" +:+ procID;
   "SLURM_NTASKS=2"].

Definition idsOfUser : Z * Z := (1000, 1000).

(** The hook of the tests, process 0 of 2, and the hook of the other
    process. *)
Definition hook0 : Hook :=
  new_Hook (activation_variable ++ slurm_variables "0") idsOfUser.
Definition hook1 : Hook :=
  new_Hook (activation_variable ++ slurm_variables "1") idsOfUser.

(** [createFileIfNecessary(syncDir / "arrival/slurm-procid-1")] and the same
    for departure, by which the tests stand in for the other process. *)
Definition other_process_arrives : repository -> repository :=
  signalArrival hook1.
Definition other_process_departs : repository -> repository :=
  signalDeparture hook1.

(** TEST(SlurmGlobalSyncTestGroup, test_hook_disabled) *)
Example test_hook_disabled (peers : list (repository -> repository))
    (repo : repository) :
  performSynchronization (new_Hook [] idsOfUser) peers repo = (inr tt, repo) /\
  performSynchronization (new_Hook activation_variable idsOfUser) peers repo
  = (inr tt, repo) /\
  performSynchronization (new_Hook (slurm_variables "0") idsOfUser) peers repo
  = (inr tt, repo).
Proof. repeat split. Qed.

(** TEST(SlurmGlobalSyncTestGroup, test_internals) *)
Example test_internals :
  let syncDirName := "slurm-jobid-256-stepid-32" in
  let arrival_of (repo : repository) := arrival (default empty_SyncDir (repo !! syncDirName)) in
  let departure_of (repo : repository) := departure (default empty_SyncDir (repo !! syncDirName)) in
  let repo0 : repository := ∅ in
  (* signal arrival *)
  file_exists "slurm-procid-0" (arrival_of repo0) = false /\
  let repo1 := signalArrival hook0 repo0 in
  arrival_of repo1 = [("slurm-procid-0", idsOfUser)] /\
  (* arrival synchronization *)
  allInstancesArrived hook0 repo1 = false /\
  let repo2 := other_process_arrives repo1 in
  allInstancesArrived hook0 repo2 = true /\
  (* signal departure *)
  file_exists "slurm-procid-0" (departure_of repo2) = false /\
  let repo3 := signalDeparture hook0 repo2 in
  departure_of repo3 = [("slurm-procid-0", idsOfUser)] /\
  (* departure synchronization *)
  allInstancesDeparted hook0 repo3 = false /\
  let repo4 := other_process_departs repo3 in
  allInstancesDeparted hook0 repo4 = true /\
  (* cleanup of sync dir *)
  cleanupSyncDir hook0 repo4 !! syncDirName = None.
Proof. vm_compute. repeat split. Qed.

(** TEST(SlurmGlobalSyncTestGroup, test_high_level_synchronization) *)
Example test_high_level_synchronization :
  let repo := other_process_departs (other_process_arrives ∅) in
  let done := performSynchronization hook0 [] repo in
  done.1 = inr tt /\ cleanupSyncDir hook0 done.2 = ∅.
Proof. vm_compute. repeat split. Qed.

Lemma run_after_two_arrivals :
  run hook0 (other_process_arrives (signalArrival hook0 ∅)).
Proof.
  apply run_signalArrival; [apply run_signalArrival; [now apply run_start|]|];
    repeat split.
Defined.

Lemma C4_witness_two_tasks :
  let repo := other_process_arrives (signalArrival hook0 ∅) in
  (allInstancesArrived hook0 repo = true <->
   size (slurm_procid_files (arrival (openSyncDir hook0 repo))) = 2%nat) /\
  (allInstancesDeparted hook0 repo = true <->
   size (slurm_procid_files (departure (openSyncDir hook0 repo))) = 2%nat).
Proof.
  apply (C4_all_instances_iff_N_sync_files hook0
           (other_process_arrives (signalArrival hook0 ∅)) 2%nat).
  - exact run_after_two_arrivals.
  - reflexivity.
Defined.


Lemma C6_witness_activation_variable_alone :
  ~ activation activation_variable /\
  performSynchronization (new_Hook activation_variable idsOfUser)
    [other_process_arrives] ∅
  = (inr tt, ∅).
Proof.
  assert (~ activation activation_variable) as Hnot
    by (intros (_ & [v Hv] & _); discriminate Hv).
  split; [exact Hnot|].
  now apply (C6_hook_participates_iff_activated activation_variable idsOfUser).
Defined.

End SlurmGlobalSyncFacts.

Module SshFacts.
Import Environment Text Ssh.

(** *** Characters and separators *)


Lemma split_without sep s : occurs sep s = false -> split sep s = [s].
Proof.
  induction s as [|c s IH]; simpl; [reflexivity|].
  intros H. apply orb_false_iff in H as [Hc Hs].
  rewrite Hc, (IH Hs). reflexivity.
Qed.


Lemma getlines_line l rest :
  occurs newline l = false -> getlines (line l +:+ rest) = l :: getlines rest.
Proof.
  unfold line. induction l as [|c l IH]; simpl.
  - reflexivity.
  - intros H. apply orb_false_iff in H as [Hc Hl].
    rewrite Hc, (IH Hl). reflexivity.
Qed.

Lemma getlines_unlines lines :
  Forall (fun l => occurs newline l = false) lines ->
  getlines (unlines lines) = lines.
Proof.
  induction 1 as [|l lines Hl _ IH]; simpl; [reflexivity|].
  now rewrite getlines_line, IH.
Qed.




(** *** Reading back what the hook wrote *)










(** *** The files after the hook *)

(** The mode that the test requires of the environment file is 0744. *)
Lemma expected_permissions_of_environment_file :
  Z.lor owner_all (Z.lor group_read others_read) = octal [0;7;4;4].
Proof. reflexivity. Qed.

(** An environment file of mode 0644 does not pass the check of the test,
    whatever it contains. *)
Lemma environment_file_of_mode_0644_fails_the_test container env file :
  container !! environmentFile = Some file ->
  permissions file = octal [0;6;4;4] ->
  checkContainerHasEnvironmentFile container env <> Passed.
Proof.
  intros Hfile Hmode. unfold checkContainerHasEnvironmentFile.
  rewrite Hfile, Hmode.
  destruct (expectedMap env ∅) as [expected|]; [|discriminate].
  unfold CHECK.
  destruct (bool_decide (head (getlines (contents file)) = Some "#!/bin/sh"));
    [|discriminate].
  destruct (actualMap _ _) as [[]|actual]; try discriminate.
  destruct (bool_decide (actual = expected)); discriminate.
Qed.



(** The script sources the file that the hook writes. *)
Lemma sshHookScript_sources_the_environment_file :
  sourced sshHookScript = "/opt/oci-hooks/dropbear/environment" /\
  scriptText sshHookScript = expectedScript.
Proof. split; reflexivity. Qed.


(** process.env of TEST(SSHHookTestGroup, testSetEnvironmentOnLogin) *)
Definition environmentVariablesInContainer : list string :=
  ["PATH=/bin:/usr/bin:/usr/local/bin:/sbin";
   "TEST1=VariableTest1";
   "TEST2=VariableTest2"].



(** TEST(SSHHookTestGroup, testSetEnvironmentOnLogin), the two checks that
    follow [startSshDaemon]: the check of the profile module passes; the
    check of the environment file reads the entries back and fails on the
    permissions, which it expects to be owner_all | group_read | others_read
    (0744) where the spec, and the model of the hook with it, has 0644. With
    that mode the file passes. *)
Example testSetEnvironmentOnLogin :
  exists after environment,
    startSshDaemon environmentVariablesInContainer ∅ = Some after /\
    after !! environmentFile = Some environment /\
    checkContainerHasEtcProfileModule after = Passed /\
    checkContainerHasEnvironmentFile after environmentVariablesInContainer
    = Failed /\
    checkContainerHasEnvironmentFile
      (<[environmentFile :=
           {| contents := contents environment;
              permissions := octal [0;7;4;4] |}]> after)
      environmentVariablesInContainer
    = Passed.
Proof.
  eexists _, _. split; [reflexivity|]. split; [reflexivity|].
  repeat split; vm_compute; reflexivity.
Qed.

(** A value with '=' in it is written by the hook and is not read back by
    the loop of the test. *)
Example value_with_equals_sign_is_not_read_back :
  exists expected actual,
    expectedMap ["OPTS=a=b"] ∅ = Some expected /\
    actualMap [exportLine "OPTS" "a=b"] ∅ = inr actual /\
    expected !! "OPTS" = Some "a=b" /\ actual !! "OPTS" = Some EmptyString.
Proof. eexists _, _. repeat split; vm_compute; reflexivity. Qed.

End SshFacts.

Module GlibcFacts.
Import Text Glibc.

(** The order on versions is that of the numbers: 2.9 is below 2.10. *)
Lemma version_le_spec (v w : nat * nat) :
  version_le v w = true <->
  (v.1 < w.1)%nat \/ (v.1 = w.1 /\ (v.2 <= w.2)%nat).
Proof.
  unfold version_le.
  rewrite orb_true_iff, andb_true_iff, Nat.ltb_lt, Nat.eqb_eq, Nat.leb_le.
  reflexivity.
Qed.

(** The container has a glibc that is at least as recent as that of the
    host. *)
Definition container_glibc_is_newer_or_same (container : rootfs)
    (host : list (string * file)) : Prop :=
  exists hostLibc containerLibc hostVersion containerVersion,
    findLibc host = Some hostLibc /\
    findLibc (get64bitContainerLibraries container) = Some containerLibc /\
    parseVersion hostLibc.2 = Some hostVersion /\
    parseVersion containerLibc.2 = Some containerVersion /\
    ((hostVersion.1 < containerVersion.1)%nat \/
     (hostVersion.1 = containerVersion.1 /\
      (hostVersion.2 <= containerVersion.2)%nat)).

Definition container_has_no_glibc (container : rootfs) : Prop :=
  findLibc (get64bitContainerLibraries container) = None.

(** C8. When the glibc of the container is at least as recent as that of the
    host, or when the container has no glibc at all,
    [injectGlibcLibrariesIfNecessary] changes nothing: the hook succeeds and
    the root filesystem of the container, files and mounts, is the same
    after as before. *)
Theorem C8_no_injection_when_not_necessary (container : rootfs)
    (host : list (string * file))
    (Hskip : container_glibc_is_newer_or_same container host \/
             container_has_no_glibc container) :
  injectGlibcLibrariesIfNecessary container host = (inr tt, container).
Proof.
  unfold injectGlibcLibrariesIfNecessary, containerHasGlibc.
  cbv [containerLibraries hostLibraries].
  destruct Hskip as [(hostLibc & containerLibc & vh & vc & Hh & Hc & Hvh & Hvc
                      & Hle)|Hnone].
  - rewrite Hh, Hc. simpl. destruct hostLibc as [ph fh].
    destruct containerLibc as [pc fc]. simpl in Hvh, Hvc.
    unfold containerGlibcIsNewerOrSame. rewrite Hvh, Hvc.
    apply version_le_spec in Hle. now rewrite Hle.
  - unfold container_has_no_glibc in Hnone. now rewrite Hnone.
Qed.

(** *** Scenarios *)

Definition glibc (version : string) : file :=
  {| bytes := "glibc " +:+ version;
     elf := Some {| soname := "libc.so.6"; is64bit := true;
                    machine := "x86-64"; gnu_version := Some version |} |}.

Definition libm (origin : string) : file :=
  {| bytes := "libm of " +:+ origin;
     elf := Some {| soname := "libm.so.6"; is64bit := true;
                    machine := "x86-64"; gnu_version := None |} |}.

Definition script : file := {| bytes := "#!/bin/sh"; elf := None |}.

Definition container_with_glibc (version : string) : rootfs :=
  {| files :=
       list_to_map
         [("lib64/libc.so.6", glibc version);
          ("lib64/libm.so.6", libm "container");
          ("bin/run.sh", script)];
     bind_mounts := ∅ |}.

Definition container_without_glibc : rootfs :=
  {| files := list_to_map [("bin/run.sh", script)]; bind_mounts := ∅ |}.

Definition host_with_glibc (version : string) : list (string * file) :=
  [("/lib64/libc.so.6", glibc version); ("/lib64/libm.so.6", libm "host")].

(** S6: the libc of the container reports 2.36, that of the host 2.31. *)
Lemma C8_witness_newer_container :
  injectGlibcLibrariesIfNecessary (container_with_glibc "2.36")
    (host_with_glibc "2.31")
  = (inr tt, container_with_glibc "2.36").
Proof.
  apply (C8_no_injection_when_not_necessary (container_with_glibc "2.36")
           (host_with_glibc "2.31")).
  left. exists ("/lib64/libc.so.6", glibc "2.31"),
    ("lib64/libc.so.6", glibc "2.36"), (2, 31)%nat, (2, 36)%nat.
  repeat split; try reflexivity. right. simpl. lia.
Defined.

(** A container without glibc. *)
Example container_without_glibc_is_left_alone :
  injectGlibcLibrariesIfNecessary container_without_glibc
    (host_with_glibc "2.31")
  = (inr tt, container_without_glibc).
Proof. vm_compute. reflexivity. Qed.

(** An older container: its libraries are moved aside and those of the host
    are mounted in their place. *)
Example older_container_gets_the_host_libraries :
  let after :=
    (injectGlibcLibrariesIfNecessary (container_with_glibc "2.9")
       (host_with_glibc "2.10")).2 in
  bind_mounts after !! "lib64/libc.so.6" = Some (glibc "2.10") /\
  bind_mounts after !! "lib64/libm.so.6" = Some (libm "host") /\
  files after !! ".sarus.bak.libc.so.6" = Some (glibc "2.9") /\
  files after !! "bin/run.sh" = Some script.
Proof. vm_compute. repeat split. Qed.

End GlibcFacts.

(** ** The order of the security checks and what a failure reports *)
Module SecurityChecksOrder.
Import Error Filesystem SecurityChecks SecurityChecksFacts.

Section WithFilesystem.
Variable fs : filesystem.

(** *** The order of the checks *)

(** The primitive check that an event records. *)
Definition primitive (ev : event) : Checks unit :=
  match ev with
  | CheckedRootOwned q => checkThatPathIsRootOwned fs q
  | CheckedNotGroupWritableOrWorldWritable q =>
      checkThatPathIsNotGroupWritableOrWorldWritable fs q
  end.

Definition passes (ev : event) : Prop := succeeds (primitive ev).

(** A computation follows a plan, a list of primitive checks: it performs
    the checks of the plan in order, up to the first one that fails. Either
    every check of the plan passes and the computation succeeds, or the
    computation stops at the first check that fails, and the error that it
    throws is related by [R] to the error of that check. *)
Definition follows (R : Error message -> Error message -> Prop)
    (m : Checks unit) (plan : list event) : Prop :=
  (succeeds m /\ performed m = plan /\ Forall passes plan) \/
  (exists before ev after e e0,
     plan = before ++ ev :: after /\ performed m = before ++ [ev] /\
     Forall passes before /\ outcome (primitive ev) = inl e0 /\
     outcome m = inl e /\ R e e0).

Lemma follows_mret R : follows R (mret tt) [].
Proof. left. repeat split. constructor. Qed.

Lemma follows_bind R (m : Checks unit) (k : unit -> Checks unit) plan plan' :
  follows R m plan -> (succeeds m -> follows R (k tt) plan') ->
  follows R (m ≫= k) (plan ++ plan').
Proof.
  intros [(Hs & Hp & Hall)|(before & ev & after & e & e0 & -> & Hp & Hall & Hev
                            & Ho & HR)] Hk.
  - destruct (Hk Hs) as [(Hs' & Hp' & Hall')
                        |(before & ev & after & e & e0 & -> & Hp' & Hall' & Hev
                          & Ho' & HR)].
    + left. split; [now apply succeeds_bind|].
      rewrite performed_bind, Hs, Hp, Hp'. split; [reflexivity|].
      now apply Forall_app.
    + right. exists (plan ++ before), ev, after, e, e0.
      rewrite performed_bind, outcome_bind, Hs, Hp, Hp', !app_assoc.
      repeat split; try assumption. now apply Forall_app.
  - right. exists before, ev, (after ++ plan'), e, e0.
    rewrite performed_bind, outcome_bind, Ho, Hp, app_nil_r, <- app_assoc.
    repeat split; assumption.
Qed.

Lemma follows_primitive R ev :
  (forall e, R e e) -> follows R (primitive ev) [ev].
Proof.
  intros Hrefl.
  assert (performed (primitive ev) = [ev]) as Hperf
    by (destruct ev; [apply performed_checkThatPathIsRootOwned
                     |apply performed_checkThatPathIsNotGroupWritableOrWorldWritable]).
  destruct (outcome (primitive ev)) as [e|[]] eqn:Ho.
  - right. exists [], ev, [], e, e. repeat split; auto.
  - left. repeat split; auto.
Qed.

Lemma follows_for_each R {A : Type} (body : A -> Checks unit)
    (plan : A -> list event) (range : list A) :
  (forall x, x ∈ range -> follows R (body x) (plan x)) ->
  follows R (for_each body range) (concat (plan <$> range)).
Proof.
  induction range as [|x range IH]; intros H; simpl.
  - apply follows_mret.
  - apply follows_bind; [apply H; constructor|]. intros _.
    apply IH. intros y Hy. apply H. now constructor.
Qed.

Lemma follows_weaken (R R' : Error message -> Error message -> Prop) m plan :
  (forall e e0, R e e0 -> R' e e0) -> follows R m plan -> follows R' m plan.
Proof.
  intros HR [H|(before & ev & after & e & e0 & ? & ? & ? & ? & ? & ?)];
    [now left|].
  right. exists before, ev, after, e, e0. repeat split; auto.
Qed.

(** The two primitive checks of one path. *)
Definition both_checks (q : path) : list event :=
  [CheckedRootOwned q; CheckedNotGroupWritableOrWorldWritable q].

Lemma follows_both_checks R q (k : Checks unit) plan :
  (forall e, R e e) ->
  (untampered fs q -> follows R k plan) ->
  follows R (checkThatPathIsRootOwned fs q ;;
             checkThatPathIsNotGroupWritableOrWorldWritable fs q ;; k)
    (both_checks q ++ plan).
Proof.
  intros Hrefl Hk.
  change (both_checks q ++ plan)
    with ([CheckedRootOwned q]
          ++ [CheckedNotGroupWritableOrWorldWritable q] ++ plan).
  apply (follows_bind R (primitive (CheckedRootOwned q)));
    [now apply follows_primitive|]. intros Hro.
  apply (follows_bind R
           (primitive (CheckedNotGroupWritableOrWorldWritable q)));
    [now apply follows_primitive|]. intros Hnw.
  apply Hk, succeeds_both_checks, succeeds_bind. now split.
Qed.

Lemma follows_both_checks_only R q :
  (forall e, R e e) ->
  follows R (checkThatPathIsRootOwned fs q ;;
             checkThatPathIsNotGroupWritableOrWorldWritable fs q)
    (both_checks q).
Proof.
  intros Hrefl.
  apply (follows_bind R (primitive (CheckedRootOwned q)) _
           [CheckedRootOwned q] [CheckedNotGroupWritableOrWorldWritable q]);
    [now apply follows_primitive|]. intros _.
  now apply (follows_primitive R (CheckedNotGroupWritableOrWorldWritable q)).
Qed.

(** The checks of the do-while loop, for the paths that it visits. *)
Lemma follows_checkParentPaths_prefixes R absolute names k :
  (forall e, R e e) ->
  (1 <= k <= length names)%nat ->
  follows R
    (checkParentPaths fs (Path absolute []) (Path absolute (take k names)))
    (concat (both_checks <$> prefixes absolute names k)).
Proof.
  intros Hrefl. induction k as [|k IH]; [lia|]. intros Hk.
  rewrite checkParentPaths_unfold. rewrite parent_path_take by lia.
  simpl prefixes. rewrite fmap_cons. simpl concat.
  apply follows_both_checks; [exact Hrefl|]. intros Hp.
  destruct k as [|k].
  - unfold loop_continues. simpl take.
    rewrite bool_decide_eq_false_2 by (intros H; now apply H).
    rewrite andb_false_r. apply follows_mret.
  - assert (Path absolute (take (S k) names) <> Path absolute []) as Hroot.
    { intros [= E]. apply (f_equal length) in E.
      rewrite length_take_le in E by lia. discriminate. }
    unfold loop_continues. rewrite (bool_decide_eq_true_2 _ Hroot), andb_true_r.
    apply untampered_exists in Hp.
    apply path_exists_prefix in Hp; [|lia]. rewrite Hp.
    apply IH. lia.
Qed.

Lemma follows_checkParentPaths R p :
  (forall e, R e e) ->
  follows R (checkParentPaths fs (root_path p) p)
    (concat (both_checks <$> visited_paths p)).
Proof.
  intros Hrefl. rewrite root_path_eq. destruct p as [absolute names].
  unfold visited_paths. simpl is_absolute. simpl elems.
  destruct names as [|name names].
  - rewrite checkParentPaths_unfold.
    change (concat (both_checks <$> [Path absolute []]))
      with (both_checks (Path absolute []) ++ []).
    apply follows_both_checks; [exact Hrefl|]. intros _.
    unfold parent_path, loop_continues. simpl. apply follows_mret.
  - pose proof (follows_checkParentPaths_prefixes R absolute (name :: names)
                  (length (name :: names)) Hrefl) as H.
    rewrite firstn_all in H. apply H. simpl. lia.
Qed.

(** The primitive checks of [checkThatPathIsUntamperable], in order: the two
    checks of the path, then of each parent that the loop visits, nearest
    first, then, for a directory, of each entry below it in the order of the
    iteration. *)
Definition checks_of_path (p : path) : list event :=
  concat (both_checks <$> visited_paths p)
  ++ (if is_directory fs p
      then concat (both_checks <$> recursive_directory_iterator fs p)
      else []).

Lemma follows_checkThatPathIsUntamperable R p :
  (forall e, R e e) ->
  follows R (checkThatPathIsUntamperable fs p) (checks_of_path p).
Proof.
  intros Hrefl. unfold checkThatPathIsUntamperable, checks_of_path. cbv zeta.
  apply follows_bind; [now apply follows_checkParentPaths|]. intros _.
  destruct (is_directory fs p); [|apply follows_mret].
  apply follows_for_each. intros d _. now apply follows_both_checks_only.
Qed.

(** X1. The checks of [checkThatPathIsUntamperable] are carried out in a
    fixed order: the two checks of the path, then of each parent, nearest
    first, then of the entries below a directory. The call succeeds when all
    of them pass, having performed them all; otherwise it has performed the
    checks up to the first one that fails, none after it, and throws the
    error of that check as it is. *)
Theorem X1_untamperable_stops_at_first_failing_check (p : path) :
  let run := checkThatPathIsUntamperable fs p in
  (succeeds run /\ performed run = checks_of_path p /\
   Forall passes (checks_of_path p)) \/
  (exists before ev after e,
     checks_of_path p = before ++ ev :: after /\
     performed run = before ++ [ev] /\
     Forall passes before /\
     outcome (primitive ev) = inl e /\ outcome run = inl e).
Proof.
  destruct (follows_checkThatPathIsUntamperable eq p (fun e => eq_refl))
    as [H|(before & ev & after & e & e0 & H1 & H2 & H3 & H4 & H5 & ->)];
    [now left|].
  right. now exists before, ev, after, e0.
Qed.

(** *** What a failure reports *)

Definition event_path (ev : event) : path :=
  match ev with
  | CheckedRootOwned q | CheckedNotGroupWritableOrWorldWritable q => q
  end.

(** The error [e] reports what is wrong with the path [q]: its owner cannot
    be determined, or it is owned by another user than root, whose uid and
    gid the error gives, or it is group- or world-writable. *)
Definition reports (e : Error message) (q : path) : Prop :=
  (path_exists fs q = false /\
   e = [OwnerNotDetermined q; FailedToCheckPathIsUntamperable q]) \/
  (exists n, resolve fs q = Some n /\ node_uid n <> 0 /\
             e = [PathMustBeOwnedByRoot q (node_uid n) (node_gid n)]) \/
  (group_or_world_writable fs q /\ e = [PathCannotBeGroupOrWorldWritable q]).

Lemma primitive_failure ev e :
  outcome (primitive ev) = inl e -> reports e (event_path ev).
Proof.
  destruct ev as [q|q]; simpl.
  - rewrite outcome_checkThatPathIsRootOwned. unfold getOwner.
    destruct (resolve fs q) as [n|] eqn:Hn.
    + simpl. case_bool_decide as Hu; [|discriminate]. intros [= <-].
      right. left. exists n. repeat split; assumption.
    + simpl. intros [= <-]. left. unfold path_exists. now rewrite Hn.
  - intros He. right. right.
    assert (fails (checkThatPathIsNotGroupWritableOrWorldWritable fs q)) as Hf
      by now exists e.
    apply fails_checkThatPathIsNotGroupWritableOrWorldWritable in Hf.
    split; [exact Hf|].
    rewrite outcome_checkThatPathIsNotGroupWritableOrWorldWritable in He.
    destruct (_ || _); [now injection He as <- | discriminate].
Qed.

Lemma reports_not_untampered e q : reports e q -> ~ untampered fs q.
Proof.
  intros [[Hq _]|[(n & Hn & Hu & _)|[Hw _]]] [(n' & Hn' & Hu') Hnw].
  - unfold path_exists in Hq. now rewrite Hn' in Hq.
  - congruence.
  - contradiction.
Qed.

Lemma checks_of_path_event p ev :
  ev ∈ checks_of_path p ->
  event_path ev ∈ visited_paths p \/
  (is_directory fs p = true /\
   event_path ev ∈ recursive_directory_iterator fs p).
Proof.
  assert (forall l, ev ∈ concat (both_checks <$> l) -> event_path ev ∈ l)
    as Hconcat.
  { induction l as [|q l IH]; simpl; [inversion 1|].
    rewrite !elem_of_cons. intros [->|[->|Hin]]; auto. }
  unfold checks_of_path. rewrite elem_of_app. intros [Hin|Hin].
  - left. now apply Hconcat.
  - right. destruct (is_directory fs p); [|inversion Hin].
    split; [reflexivity|]. now apply Hconcat.
Qed.

(** X2. When [checkThatPathIsUntamperable] fails, the error reports the
    offending path: a path among those that are checked (the path, a parent
    that the loop visits or, for a directory, an entry below it) that does
    not pass the two checks. The error says that the owner of that path
    cannot be determined, or gives the uid and the gid found when the owner
    is not root, or says that the path is group- or world-writable. *)
Theorem X2_untamperable_failure_reports_offending_path (p : path)
    (e : Error message)
    (Hfails : outcome (checkThatPathIsUntamperable fs p) = inl e) :
  exists q,
    (q ∈ visited_paths p \/
     (is_directory fs p = true /\ q ∈ recursive_directory_iterator fs p)) /\
    ~ untampered fs q /\
    reports e q.
Proof.
  destruct (follows_checkThatPathIsUntamperable eq p (fun e => eq_refl))
    as [(Hs & _)|(before & ev & after & e' & e0 & Hplan & _ & _ & Hev & Ho & ->)].
  - unfold succeeds in Hs. congruence.
  - assert (e0 = e) as -> by congruence.
    exists (event_path ev). apply primitive_failure in Hev.
    split; [|split; [now apply (reports_not_untampered e)|exact Hev]].
    apply checks_of_path_event. rewrite Hplan.
    apply elem_of_app. right. constructor.
Qed.

(** *** What is performed of a plan *)

(** The primitive check passes. *)
Definition passed (ev : event) : bool :=
  match outcome (primitive ev) with inr _ => true | inl _ => false end.

(** The checks of a plan that are performed when each check that fails
    ends the run: those up to the first one that fails, that one included. *)
Fixpoint up_to_first_failure (plan : list event) : list event :=
  match plan with
  | [] => []
  | ev :: rest => ev :: (if passed ev then up_to_first_failure rest else [])
  end.

Lemma passed_passes ev : passed ev = true <-> passes ev.
Proof.
  unfold passed, passes, succeeds.
  destruct (outcome (primitive ev)) as [e|[]]; split; congruence.
Qed.

Lemma Forall_passes_dec plan : Forall passes plan \/ ~ Forall passes plan.
Proof.
  induction plan as [|ev plan [IH|IH]].
  - left. constructor.
  - destruct (passed ev) eqn:Hev.
    + left. constructor; [now apply passed_passes | exact IH].
    + right. intros H. apply Forall_cons in H as [H _].
      apply passed_passes in H. congruence.
  - right. intros H. now apply Forall_cons in H as [_ H].
Qed.

Lemma up_to_first_failure_app_passes plan plan' :
  Forall passes plan ->
  up_to_first_failure (plan ++ plan') = plan ++ up_to_first_failure plan'.
Proof.
  induction 1 as [|ev plan Hev _ IH]; simpl; [reflexivity|].
  apply passed_passes in Hev. now rewrite Hev, IH.
Qed.

Lemma up_to_first_failure_passes plan :
  Forall passes plan -> up_to_first_failure plan = plan.
Proof.
  intros H. rewrite <- (app_nil_r plan) at 1.
  rewrite up_to_first_failure_app_passes by exact H. apply app_nil_r.
Qed.

Lemma up_to_first_failure_fails ev plan :
  ~ passes ev -> up_to_first_failure (ev :: plan) = [ev].
Proof.
  intros Hev. simpl. destruct (passed ev) eqn:E; [|reflexivity].
  apply passed_passes in E. contradiction.
Qed.

Lemma up_to_first_failure_app_fails plan plan' :
  ~ Forall passes plan ->
  up_to_first_failure (plan ++ plan') = up_to_first_failure plan.
Proof.
  induction plan as [|ev plan IH]; intros Hnot.
  - destruct Hnot. constructor.
  - simpl. destruct (passed ev) eqn:Hev; [|reflexivity].
    rewrite IH; [reflexivity|]. intros H. apply Hnot.
    constructor; [now apply passed_passes | exact H].
Qed.

Lemma up_to_first_failure_length plan :
  (length (up_to_first_failure plan) <= length plan)%nat.
Proof.
  induction plan as [|ev plan IH]; simpl; [lia|].
  destruct (passed ev); simpl; lia.
Qed.

(** What a computation that follows a plan has performed. *)
Lemma follows_up_to_first_failure R m plan :
  follows R m plan ->
  performed m = up_to_first_failure plan /\
  (succeeds m <-> Forall passes plan).
Proof.
  intros [(Hs & Hp & Hall)
         |(before & ev & after & e & e0 & -> & Hp & Hall & Hev & Ho & _)].
  - rewrite up_to_first_failure_passes by exact Hall. tauto.
  - assert (~ passes ev) as Hfails
      by (unfold passes, succeeds; rewrite Hev; discriminate).
    rewrite up_to_first_failure_app_passes by exact Hall.
    rewrite up_to_first_failure_fails by exact Hfails.
    split; [exact Hp|]. split.
    + unfold succeeds. rewrite Ho. discriminate.
    + intros H. apply Forall_app in H as [_ H].
      now apply Forall_cons in H as [H _].
Qed.

Lemma visited_paths_first p : exists rest, visited_paths p = p :: rest.
Proof.
  destruct p as [absolute names]. unfold visited_paths. simpl.
  destruct names as [|name names]; [now exists []|].
  change (length (name :: names)) with (S (length names)).
  simpl prefixes. rewrite firstn_all. eauto.
Qed.

Lemma checks_of_path_first p :
  exists rest, checks_of_path p = CheckedRootOwned p :: rest.
Proof.
  unfold checks_of_path. destruct (visited_paths_first p) as [rest ->].
  simpl. eauto.
Qed.

End WithFilesystem.
Arguments follows fs R m plan : assert.

(** *** The checks of a configuration *)

Lemma Checks_bind_assoc {A B C : Type} (m : Checks A) (f : A -> Checks B)
    (g : B -> Checks C) :
  (m ≫= f) ≫= g = m ≫= (fun a => f a ≫= g).
Proof.
  destruct m as [t [e|a]]; [reflexivity|].
  unfold mbind, Checks_bind.
  destruct (f a) as [t' [e'|b]]; [reflexivity|].
  destruct (g b) as [t'' r]. now rewrite app_assoc.
Qed.

Lemma Checks_bind_mret {A : Type} (k : Checks A) : (mret tt ;; k) = k.
Proof. now destruct k. Qed.

Lemma for_each_app {A : Type} (body : A -> Checks unit) (l1 l2 : list A) :
  for_each body (l1 ++ l2) = (for_each body l1 ;; for_each body l2).
Proof.
  induction l1 as [|x l1 IH].
  - symmetry. apply (Checks_bind_mret (for_each body l2)).
  - change (for_each body ((x :: l1) ++ l2))
      with (body x ;; for_each body (l1 ++ l2)).
    change (for_each body (x :: l1)) with (body x ;; for_each body l1).
    now rewrite IH, Checks_bind_assoc.
Qed.

Lemma outcome_for_each_fails {A : Type} (body : A -> Checks unit)
    (range : list A) (e : Error message) :
  outcome (for_each body range) = inl e ->
  exists before x after,
    range = before ++ x :: after /\
    Forall (fun y => succeeds (body y)) before /\
    outcome (body x) = inl e.
Proof.
  induction range as [|x range IH]; simpl; [discriminate|].
  rewrite outcome_bind. destruct (outcome (body x)) as [e'|[]] eqn:Hx.
  - intros [= ->]. exists [], x, range. repeat split; auto.
  - intros H. destruct (IH H) as (before & y & after & -> & Hall & Hy).
    exists (x :: before), y, after. repeat split; auto.
Qed.

Section WithConfig.
Variable config : Config.
Variable fs : filesystem.

(** The body of the loop over the hooks of one type. *)
Definition check_hook (hook : path) : Checks unit :=
  try_catch (checkThatPathIsUntamperable fs hook)
    (fun e => throw (SARUS_RETHROW_ERROR e
                       (FailedToCheckOCIHookIsUntamperable hook))).

(** The hooks that are checked, in order. *)
Definition checked_hooks : list path :=
  hooks_of config "prestart" ++ hooks_of config "poststart"
  ++ hooks_of config "poststop".

Lemma checkThatOCIHooksAreUntamperableByType_for_each hookType :
  checkThatOCIHooksAreUntamperableByType config fs hookType =
  for_each check_hook (hooks_of config hookType).
Proof.
  unfold checkThatOCIHooksAreUntamperableByType, hooks_of.
  now destruct (OCIHooks config ≫= _).
Qed.

Lemma checkThatOCIHooksAreUntamperable_for_each :
  checkThatOCIHooksAreUntamperable config fs = for_each check_hook checked_hooks.
Proof.
  unfold checkThatOCIHooksAreUntamperable, checked_hooks.
  destruct (OCIHooks config) as [hooks|] eqn:E.
  - now rewrite !checkThatOCIHooksAreUntamperableByType_for_each, !for_each_app.
  - unfold hooks_of. now rewrite E.
Qed.

Lemma outcome_check_hook hook :
  outcome (check_hook hook) =
  match outcome (checkThatPathIsUntamperable fs hook) with
  | inl e => inl (SARUS_RETHROW_ERROR e (FailedToCheckOCIHookIsUntamperable hook))
  | inr a => inr a
  end.
Proof.
  unfold check_hook, outcome.
  now destruct (checkThatPathIsUntamperable fs hook) as [t [e|[]]].
Qed.

Lemma performed_check_hook hook :
  performed (check_hook hook) = performed (checkThatPathIsUntamperable fs hook).
Proof.
  unfold check_hook, performed.
  destruct (checkThatPathIsUntamperable fs hook) as [t [e|[]]]; simpl;
    [apply app_nil_r | reflexivity].
Qed.

(** X4. When the check of the OCI hooks fails, it fails at the first hook,
    in the order prestart, poststart, poststop and in the order of the
    configuration within a type, whose path is not untamperable. The error
    is the error of the check of that path, followed by the message that
    names the hook. *)
Theorem X4_hook_failure_names_first_tamperable_hook (e : Error message)
    (Hfails : outcome (checkThatOCIHooksAreUntamperable config fs) = inl e) :
  exists before hook after cause,
    checked_hooks = before ++ hook :: after /\
    Forall (untamperable fs) before /\
    outcome (checkThatPathIsUntamperable fs hook) = inl cause /\
    e = cause ++ [FailedToCheckOCIHookIsUntamperable hook].
Proof.
  rewrite checkThatOCIHooksAreUntamperable_for_each in Hfails.
  apply outcome_for_each_fails in Hfails
    as (before & hook & after & Hhooks & Hall & Hhook).
  rewrite outcome_check_hook in Hhook.
  destruct (outcome (checkThatPathIsUntamperable fs hook)) as [cause|[]] eqn:Hc;
    [|discriminate].
  injection Hhook as <-.
  exists before, hook, after, cause. repeat split; auto.
  eapply Forall_impl; [exact Hall|]. intros h Hh. simpl in Hh.
  unfold untamperable. unfold succeeds in *.
  rewrite outcome_check_hook in Hh.
  now destruct (outcome (checkThatPathIsUntamperable fs h)) as [?|[]].
Qed.

(** The primitive checks of [runSecurityChecks], in order. *)
Definition checks_of_run (sarusInstallationPrefixDir : path) : list event :=
  weak_checks sarusInstallationPrefixDir
  ++ (if securityChecks config
      then concat (checks_of_path fs <$> swept_paths config)
      else []).

Lemma carries_refl (e : Error message) : carries e e.
Proof. exists []. now rewrite app_nil_r. Qed.

Lemma follows_check_hook hook :
  follows fs carries (check_hook hook) (checks_of_path fs hook).
Proof.
  destruct (follows_checkThatPathIsUntamperable fs carries hook carries_refl)
    as [(Hs & Hp & Hall)
       |(before & ev & after & e & e0 & Hplan & Hp & Hall & Hev & Ho & later & ->)].
  - left. unfold succeeds in *.
    rewrite outcome_check_hook, performed_check_hook, Hs. auto.
  - right.
    exists before, ev, after,
      (SARUS_RETHROW_ERROR (e0 ++ later)
         (FailedToCheckOCIHookIsUntamperable hook)), e0.
    rewrite outcome_check_hook, performed_check_hook, Ho.
    repeat split; auto.
    exists (later ++ [FailedToCheckOCIHookIsUntamperable hook]).
    unfold SARUS_RETHROW_ERROR. now rewrite app_assoc.
Qed.

Lemma follows_sweeps :
  follows fs carries (sweeps config fs)
    (concat (checks_of_path fs <$> swept_paths config)).
Proof.
  unfold sweeps, checkThatBinariesInSarusJsonAreUntamperable.
  rewrite checkThatOCIHooksAreUntamperable_for_each.
  replace (swept_paths config)
    with ([mksquashfsPath config; initPath config; runcPath config]
          ++ checked_hooks
          ++ [prefixDir config / ["openssh"];
              prefixDir config / ["bin"; "ssh_hook"]])
    by (unfold swept_paths, checked_hooks; now rewrite <- !app_assoc).
  rewrite !fmap_app, !concat_app. simpl. rewrite !app_nil_r.
  rewrite <- !app_assoc.
  pose proof (fun p => follows_checkThatPathIsUntamperable fs carries p
                         carries_refl) as Hpath.
  rewrite !Checks_bind_assoc.
  apply follows_bind; [apply Hpath|]. intros _.
  apply follows_bind; [apply Hpath|]. intros _.
  apply follows_bind; [apply Hpath|]. intros _.
  apply follows_bind.
  { apply follows_for_each. intros hook _. apply follows_check_hook. }
  intros _.
  apply follows_bind; [apply Hpath|]. intros _. apply Hpath.
Qed.

(** X5. [runSecurityChecks] carries out its checks in a fixed order: the
    two checks of sarus.json, the two checks of sarus.schema.json and, when
    the security checks are enabled, the checks of mksquashfs, init and
    runc, of the prestart, poststart and poststop hooks, of the openssh
    directory and of ssh_hook. It succeeds when all of them pass, having
    performed them all; otherwise it has performed the checks up to the
    first one that fails, none after it, and the error that it throws
    begins with the error of that check. *)
Theorem X5_runSecurityChecks_stops_at_first_failing_check (prefix : path) :
  let run := runSecurityChecks config fs prefix in
  (succeeds run /\ performed run = checks_of_run prefix /\
   Forall (passes fs) (checks_of_run prefix)) \/
  (exists before ev after e cause,
     checks_of_run prefix = before ++ ev :: after /\
     performed run = before ++ [ev] /\
     Forall (passes fs) before /\
     outcome (primitive fs ev) = inl cause /\
     outcome run = inl e /\ carries e cause).
Proof.
  change (follows fs carries (runSecurityChecks config fs prefix)
            (checks_of_run prefix)).
  unfold runSecurityChecks, checks_of_run. cbv zeta.
  change (weak_checks prefix)
    with (both_checks (prefix / ["etc"; "sarus.json"])
          ++ both_checks (prefix / ["etc"; "sarus.schema.json"])).
  rewrite <- app_assoc.
  apply follows_both_checks; [exact carries_refl|]. intros _.
  apply follows_both_checks; [exact carries_refl|]. intros _.
  destruct (securityChecks config); simpl.
  - apply follows_sweeps.
  - apply follows_mret.
Qed.

(** X12. [runSecurityChecks] succeeds exactly when sarus.json and
    sarus.schema.json are owned by root and neither group- nor
    world-writable and, when the security checks are enabled, the same
    holds of every path that is swept (mksquashfs, init, runc, the hooks of
    the three types, the openssh directory and ssh_hook), of each parent of
    such a path that the loop visits and of everything below such a path
    that is a directory. *)
Theorem X12_runSecurityChecks_succeeds_iff (prefix : path) :
  succeeds (runSecurityChecks config fs prefix) <->
  untampered fs (prefix / ["etc"; "sarus.json"]) /\
  untampered fs (prefix / ["etc"; "sarus.schema.json"]) /\
  (securityChecks config = true ->
   forall p, p ∈ swept_paths config ->
     (forall q, q ∈ visited_paths p -> untampered fs q) /\
     (is_directory fs p = true ->
      forall d, d ∈ recursive_directory_iterator fs p -> untampered fs d)).
Proof.
  unfold runSecurityChecks. cbv zeta.
  rewrite !succeeds_primitive_checks.
  destruct (securityChecks config); simpl.
  - change (succeeds (checkThatBinariesInSarusJsonAreUntamperable config fs ;;
                      checkThatOCIHooksAreUntamperable config fs ;;
                      checkThatPathIsUntamperable fs
                        (prefixDir config / ["openssh"]) ;;
                      checkThatPathIsUntamperable fs
                        (prefixDir config / ["bin"; "ssh_hook"])))
      with (succeeds (sweeps config fs)).
    rewrite succeeds_sweeps. unfold untamperable.
    setoid_rewrite succeeds_checkThatPathIsUntamperable.
    intuition.
  - pose proof succeeds_mret. intuition; discriminate.
Qed.

(** C3 (amended). For every configuration, [runSecurityChecks] performs
    the checks of a fixed plan in order, up to the first one that fails, and
    that check ends the run. The plan begins with the weak checks: owned by
    root, then not group- or world-writable, of <prefix>/etc/sarus.json and
    then of <prefix>/etc/sarus.schema.json, the two files only and none of
    their ancestors. It goes on with the checks of the sweeps (of mksquashfs,
    init and runc, of the configured OCI hooks, of <prefixDir>/openssh and of
    <prefixDir>/bin/ssh_hook: each path, its parents and what is below it)
    exactly when the flag securityChecks is true. So a check of the sweeps
    is performed if and only if the flag is true and the four weak checks
    pass, and the first one is then that of the owner of mksquashfs; and
    nothing but weak checks is performed if and only if the flag is false
    or a weak check fails. *)
Theorem C3_weak_checks_first_then_sweeps_iff_enabled (prefix : path) :
  let run := runSecurityChecks config fs prefix in
  let sweep_checks := concat (checks_of_path fs <$> swept_paths config) in
  performed run =
    up_to_first_failure fs
      (weak_checks prefix
       ++ (if securityChecks config then sweep_checks else [])) /\
  (succeeds run <->
   Forall (passes fs) (weak_checks prefix) /\
   (securityChecks config = true -> Forall (passes fs) sweep_checks)) /\
  ((exists rest,
      performed run =
      weak_checks prefix ++ CheckedRootOwned (mksquashfsPath config) :: rest)
   <-> securityChecks config = true /\ Forall (passes fs) (weak_checks prefix))
  /\
  (performed run = up_to_first_failure fs (weak_checks prefix)
   <-> securityChecks config = false \/
       ~ Forall (passes fs) (weak_checks prefix)).
Proof.
  intros run sweep_checks.
  assert (follows fs carries run (checks_of_run prefix)) as Hfollows.
  { unfold run, runSecurityChecks, checks_of_run. cbv zeta.
    change (weak_checks prefix)
      with (both_checks (prefix / ["etc"; "sarus.json"])
            ++ both_checks (prefix / ["etc"; "sarus.schema.json"])).
    rewrite <- app_assoc.
    apply follows_both_checks; [exact carries_refl|]. intros _.
    apply follows_both_checks; [exact carries_refl|]. intros _.
    destruct (securityChecks config); simpl.
    - apply follows_sweeps.
    - apply follows_mret. }
  apply follows_up_to_first_failure in Hfollows as [Hperformed Hsucceeds].
  unfold checks_of_run in Hperformed, Hsucceeds.
  fold sweep_checks in Hperformed, Hsucceeds.
  assert (exists rest,
            sweep_checks = CheckedRootOwned (mksquashfsPath config) :: rest)
    as [sweeps_rest Hsweeps].
  { unfold sweep_checks, swept_paths. simpl.
    destruct (checks_of_path_first fs (mksquashfsPath config)) as [rest ->].
    simpl. eauto. }
  assert (forall rest,
            performed run =
            weak_checks prefix
            ++ CheckedRootOwned (mksquashfsPath config) :: rest ->
            (length (performed run) <= length (weak_checks prefix))%nat ->
            False) as Hlonger.
  { intros rest Heq Hle. rewrite Heq, length_app in Hle. simpl in Hle. lia. }
  split; [exact Hperformed|]. split; [|split].
  - rewrite Hsucceeds, Forall_app.
    destruct (securityChecks config); intuition (try discriminate; auto).
  - split.
    + intros [rest Hrest].
      destruct (securityChecks config) eqn:Hflag;
        [destruct (Forall_passes_dec fs (weak_checks prefix)) as [Hweak|Hweak]|].
      * now split.
      * exfalso. apply (Hlonger rest Hrest).
        rewrite Hperformed, up_to_first_failure_app_fails by exact Hweak.
        apply up_to_first_failure_length.
      * exfalso. apply (Hlonger rest Hrest).
        rewrite Hperformed, app_nil_r. apply up_to_first_failure_length.
    + intros [Hflag Hweak]. rewrite Hflag in Hperformed.
      rewrite Hperformed, up_to_first_failure_app_passes by exact Hweak.
      rewrite Hsweeps. simpl. eauto.
  - split.
    + intros Heq.
      destruct (securityChecks config) eqn:Hflag; [|now left]. right.
      intros Hweak.
      rewrite Hperformed, up_to_first_failure_app_passes in Heq by exact Hweak.
      rewrite (up_to_first_failure_passes fs _ Hweak) in Heq.
      rewrite <- (app_nil_r (weak_checks prefix)) in Heq at 2.
      apply app_inv_head in Heq. rewrite Hsweeps in Heq. discriminate Heq.
    + intros [Hflag|Hweak].
      * now rewrite Hperformed, Hflag, app_nil_r.
      * now rewrite Hperformed, up_to_first_failure_app_fails.
Qed.

End WithConfig.

(** X6. Only the hooks of the types prestart, poststart and poststop are
    checked: two configurations that list the same hooks under these three
    types give the same checks, with the same result, whatever else their
    "OCIHooks" members hold. *)
Theorem X6_only_three_hook_types_are_checked (config config' : Config)
    (fs : filesystem)
    (Hprestart : hooks_of config "prestart" = hooks_of config' "prestart")
    (Hpoststart : hooks_of config "poststart" = hooks_of config' "poststart")
    (Hpoststop : hooks_of config "poststop" = hooks_of config' "poststop") :
  checkThatOCIHooksAreUntamperable config fs =
  checkThatOCIHooksAreUntamperable config' fs.
Proof.
  rewrite !checkThatOCIHooksAreUntamperable_for_each. unfold checked_hooks.
  now rewrite Hprestart, Hpoststart, Hpoststop.
Qed.

(** *** A site with a hook that a user owns *)

(** Everything below /opt/sarus belongs to root and is writable by root
    only, except the hook /opt/sarus/bin/timestamp_hook, which user 1000
    owns. *)
Definition fs_site : filesystem :=
  let dir := Dir 0 0 (octal [0;7;5;5]) in
  let binary := File 0 0 (octal [0;7;5;5]) in
  {| root_directory :=
       dir [("opt", dir [("sarus", dir
               [("bin", dir [("ssh_hook", binary);
                             ("timestamp_hook",
                              File 1000 1000 (octal [0;7;5;5]))]);
                ("openssh", dir [("sshd", binary);
                                 ("etc", dir [("sshd_config", binary)])])])])];
     current_path := [] |}.

Definition hook (name : string) : path :=
  Path true ["opt"; "sarus"; "bin"; name].

(** The hooks of the site: ssh_hook before the container starts,
    timestamp_hook after it stops. *)
Definition site : Config :=
  {| mksquashfsPath := Path true ["usr"; "bin"; "mksquashfs"];
     initPath := Path true ["usr"; "bin"; "init"];
     runcPath := Path true ["usr"; "bin"; "runc"];
     OCIHooks :=
       Some {["prestart" := [hook "ssh_hook"];
              "poststop" := [hook "timestamp_hook"]]};
     securityChecks := true;
     prefixDir := Path true ["opt"; "sarus"] |}.

(** The same site with timestamp_hook as a hook of the type createRuntime
    as well. *)
Definition site_createRuntime : Config :=
  {| mksquashfsPath := mksquashfsPath site;
     initPath := initPath site;
     runcPath := runcPath site;
     OCIHooks :=
       Some {["prestart" := [hook "ssh_hook"];
              "poststop" := [hook "timestamp_hook"];
              "createRuntime" := [hook "timestamp_hook"]]};
     securityChecks := true;
     prefixDir := prefixDir site |}.

(** The check of the directory /opt/sarus/bin reports timestamp_hook with
    the uid and the gid of its owner. *)
Lemma X2_witness_hook_of_user :
  exists q,
    (q ∈ visited_paths (Path true ["opt"; "sarus"; "bin"]) \/
     (is_directory fs_site (Path true ["opt"; "sarus"; "bin"]) = true /\
      q ∈ recursive_directory_iterator fs_site
            (Path true ["opt"; "sarus"; "bin"]))) /\
    ~ untampered fs_site q /\
    reports fs_site
      [PathMustBeOwnedByRoot (hook "timestamp_hook") 1000 1000] q.
Proof.
  apply (X2_untamperable_failure_reports_offending_path fs_site
           (Path true ["opt"; "sarus"; "bin"])).
  vm_compute. reflexivity.
Defined.

(** The check of the hooks of the site fails at timestamp_hook, after
    ssh_hook. *)
Lemma X4_witness_hook_of_user :
  exists before hook' after cause,
    checked_hooks site = before ++ hook' :: after /\
    Forall (untamperable fs_site) before /\
    outcome (checkThatPathIsUntamperable fs_site hook') = inl cause /\
    [PathMustBeOwnedByRoot (hook "timestamp_hook") 1000 1000;
     FailedToCheckOCIHookIsUntamperable (hook "timestamp_hook")]
    = cause ++ [FailedToCheckOCIHookIsUntamperable hook'].
Proof.
  apply (X4_hook_failure_names_first_tamperable_hook site fs_site).
  vm_compute. reflexivity.
Defined.

(** The hook of the type createRuntime is not checked. *)
Lemma X6_witness_createRuntime_hook :
  checkThatOCIHooksAreUntamperable site fs_site =
  checkThatOCIHooksAreUntamperable site_createRuntime fs_site.
Proof.
  apply (X6_only_three_hook_types_are_checked site site_createRuntime fs_site);
    vm_compute; reflexivity.
Defined.

(** *** The configuration file of a user *)

(** The site with a file sarus.json that user 1000 owns. *)
Definition fs_configuration_of_user : filesystem :=
  let dir := Dir 0 0 (octal [0;7;5;5]) in
  let binary := File 0 0 (octal [0;7;5;5]) in
  {| root_directory :=
       dir [("opt", dir [("sarus", dir
               [("etc", dir [("sarus.json",
                              File 1000 1000 (octal [0;6;4;4]));
                             ("sarus.schema.json",
                              File 0 0 (octal [0;6;4;4]))]);
                ("bin", dir [("ssh_hook", binary);
                             ("timestamp_hook", binary)]);
                ("openssh", dir [("sshd", binary)])])]);
            ("usr", dir [("bin", dir [("mksquashfs", binary);
                                      ("init", binary);
                                      ("runc", binary)])])];
     current_path := [] |}.

(** The claim as it is stated. The weak checks are always performed: each
    of the four is among the checks performed. *)
Definition C3_weak_checks_as_stated (config : Config) (fs : filesystem)
    (prefix : path) : Prop :=
  forall ev, ev ∈ weak_checks prefix ->
             ev ∈ performed (runSecurityChecks config fs prefix).

(** The sweeps are performed if and only if the flag is true: the check of
    each path that is swept is among the checks performed. *)
Definition C3_sweeps_as_stated (config : Config) (fs : filesystem)
    (prefix : path) : Prop :=
  securityChecks config = true <->
  forall p, p ∈ swept_paths config ->
            CheckedRootOwned p ∈ performed (runSecurityChecks config fs prefix).

Example runSecurityChecks_on_configuration_of_user :
  runSecurityChecks site fs_configuration_of_user (Path true ["opt"; "sarus"])
  = ([CheckedRootOwned (Path true ["opt"; "sarus"; "etc"; "sarus.json"])],
     inl [PathMustBeOwnedByRoot
            (Path true ["opt"; "sarus"; "etc"; "sarus.json"]) 1000 1000]).
Proof. vm_compute. reflexivity. Qed.

(** C3 (as stated) fails. The file sarus.json belongs to user 1000 and the
    flag securityChecks is true: the check of the owner of sarus.json throws,
    so the other weak checks are not performed, and no sweep is performed
    although the flag is true. *)
Lemma C3_counterexample_configuration_of_user :
  ~ C3_weak_checks_as_stated site fs_configuration_of_user
      (Path true ["opt"; "sarus"]) /\
  ~ C3_sweeps_as_stated site fs_configuration_of_user
      (Path true ["opt"; "sarus"]).
Proof.
  assert (performed (runSecurityChecks site fs_configuration_of_user
                       (Path true ["opt"; "sarus"]))
          = [CheckedRootOwned (Path true ["opt"; "sarus"; "etc"; "sarus.json"])])
    as Hperformed by (vm_compute; reflexivity).
  split.
  - intros Hweak.
    specialize (Hweak (CheckedRootOwned
                         (Path true ["opt"; "sarus"; "etc"; "sarus.schema.json"]))).
    rewrite Hperformed in Hweak.
    apply list_elem_of_singleton in Hweak; [discriminate Hweak|].
    unfold weak_checks. cbv zeta. do 2 right. left.
  - intros [Hsweeps _].
    specialize (Hsweeps eq_refl (mksquashfsPath site)).
    rewrite Hperformed in Hsweeps.
    apply list_elem_of_singleton in Hsweeps; [discriminate Hsweeps|].
    unfold swept_paths. simpl. left.
Qed.

End SecurityChecksOrder.

(** ** The commands of the factory *)
Module CliTable.
Import Error Cli CliFacts.

Section Factory.
Variable Command : Type.
Variable CLIArguments : Type.
Variable Config : Type.
Variable construct : CommandType -> result Command.
Variable constructWithArguments :
  CommandType -> list CLIArguments -> Config -> result Command.
Variable constructHelpOfCommand : Command -> result Command.

(** The commands that the constructor of the factory registers. *)
Definition commands : list (string * CommandType) :=
  [("help", CommandHelp); ("images", CommandImages); ("load", CommandLoad);
   ("pull", CommandPull); ("rmi", CommandRmi); ("run", CommandRun);
   ("ssh-keygen", CommandSshKeygen); ("version", CommandVersion)].

Definition sarus_factory : Factory Command CLIArguments Config :=
  new_CommandObjectsFactory construct constructWithArguments.

Lemma commands_registered commandName T :
  (commandName, T) ∈ commands ->
  registered Command CLIArguments Config construct constructWithArguments
    sarus_factory commandName T.
Proof.
  unfold commands. rewrite !elem_of_cons, elem_of_nil.
  intros H.
  repeat (destruct H as [[= -> ->]|H]; [split; reflexivity|]).
  destruct H.
Qed.

Lemma commands_unregistered commandName :
  commandName ∉ commands.*1 ->
  unregistered Command CLIArguments Config sarus_factory commandName.
Proof.
  unfold commands. simpl. rewrite !not_elem_of_cons.
  intros (? & ? & ? & ? & ? & ? & ? & ? & _).
  split; simpl; now rewrite !lookup_insert_ne, lookup_empty by congruence.
Qed.

(** X7. The factory that the constructor builds knows the eight commands
    help, images, load, pull, rmi, run, ssh-keygen and version, and no
    other: [getCommandNames] returns these eight names, in some order, each
    overload of [makeCommandObject] builds an object of the class of the
    command, and any other name is not valid. *)
Theorem X7_constructor_registers_the_eight_commands :
  getCommandNames sarus_factory ≡ₚ commands.*1 /\
  (forall commandName T, (commandName, T) ∈ commands ->
     isValidCommandName sarus_factory commandName = true /\
     makeCommandObject sarus_factory commandName = construct T /\
     forall commandArgsGroups config,
       makeCommandObjectWithArguments sarus_factory commandName
         commandArgsGroups config =
       constructWithArguments T commandArgsGroups config) /\
  (forall commandName, commandName ∉ commands.*1 ->
     isValidCommandName sarus_factory commandName = false).
Proof.
  assert (forall commandName T, (commandName, T) ∈ commands ->
     isValidCommandName sarus_factory commandName = true /\
     makeCommandObject sarus_factory commandName = construct T /\
     forall commandArgsGroups config,
       makeCommandObjectWithArguments sarus_factory commandName
         commandArgsGroups config =
       constructWithArguments T commandArgsGroups config) as Hvalid.
  { intros name T Hin. apply commands_registered in Hin.
    pose proof (isValidCommandName_registered _ _ _ _ _ _ _ _ Hin) as Hv.
    unfold makeCommandObject, makeCommandObjectWithArguments.
    rewrite Hv. destruct Hin as [-> ->]. auto. }
  assert (forall commandName, commandName ∉ commands.*1 ->
     isValidCommandName sarus_factory commandName = false) as Hinvalid.
  { intros name Hnot. apply commands_unregistered in Hnot.
    now apply isValidCommandName_unregistered in Hnot. }
  split; [|split; assumption].
  apply NoDup_Permutation.
  - apply NoDup_fst_map_to_list.
  - apply (bool_decide_unpack _). vm_compute. exact I.
  - intros name. split.
    + intros Hin. destruct (decide (name ∈ commands.*1)) as [|Hnot]; [done|].
      apply Hinvalid in Hnot. unfold isValidCommandName in Hnot.
      apply bool_decide_eq_false in Hnot.
      unfold getCommandNames in Hin.
      apply list_elem_of_fmap in Hin as ([name' make] & -> & Hin).
      apply elem_of_map_to_list in Hin. simpl in Hnot. destruct Hnot. eauto.
    + intros Hin. apply list_elem_of_fmap in Hin as ([name' T] & -> & Hin).
      destruct (Hvalid name' T Hin) as [Hv _].
      unfold isValidCommandName in Hv. apply bool_decide_eq_true in Hv.
      destruct Hv as [make Hmake]. unfold getCommandNames.
      apply list_elem_of_fmap. exists (name', make). split; [reflexivity|].
      now apply elem_of_map_to_list.
Qed.

(** X8. [addCommand] binds the name to the class in both maps, in place of
    what the name was bound to before, and leaves every other name as it
    was: after [addCommand<T>(name)] each overload of [makeCommandObject]
    builds an object of class T for that name, and does for any other name
    what it did before. *)
Theorem X8_addCommand_binds_one_name
    (this : Factory Command CLIArguments Config) (T : CommandType)
    (commandName : string) (other : string)
    (commandArgsGroups : list CLIArguments) (config : Config) :
  let this' := addCommand construct constructWithArguments T commandName this in
  makeCommandObject this' commandName = construct T /\
  makeCommandObjectWithArguments this' commandName commandArgsGroups config =
    constructWithArguments T commandArgsGroups config /\
  (other <> commandName ->
   isValidCommandName this' other = isValidCommandName this other /\
   makeCommandObject this' other = makeCommandObject this other /\
   makeCommandObjectWithArguments this' other commandArgsGroups config =
     makeCommandObjectWithArguments this other commandArgsGroups config).
Proof.
  intros this'.
  assert (isValidCommandName this' commandName = true) as Hv.
  { unfold isValidCommandName, this', addCommand. simpl.
    rewrite lookup_insert_eq. apply bool_decide_eq_true. eauto. }
  unfold makeCommandObject, makeCommandObjectWithArguments.
  rewrite Hv. simpl. rewrite !lookup_insert_eq.
  split; [reflexivity|]. split; [reflexivity|]. intros Hne.
  unfold isValidCommandName. simpl.
  now rewrite !lookup_insert_ne by congruence.
Qed.


(** *** What the factory throws *)

Lemma factory_knows_commands (this : Factory Command CLIArguments Config)
    (commandName : string) (T : CommandType) :
  factory construct constructWithArguments this ->
  (commandName, T) ∈ commands ->
  isValidCommandName this commandName = true.
Proof.
  intros Hfactory Hin. induction Hfactory as [|T' name' this _ IH].
  - apply commands_registered in Hin.
    exact (isValidCommandName_registered _ _ _ _ _ _ _ _ Hin).
  - unfold isValidCommandName in *. simpl.
    apply bool_decide_eq_true. apply bool_decide_eq_true in IH.
    destruct (decide (name' = commandName)) as [->|Hne].
    + rewrite lookup_insert_eq. eauto.
    + now rewrite lookup_insert_ne.
Qed.

(** C9 (amended). [addCommand] registers the name into both maps, for the
    class it is instantiated with; so in a factory, whose maps are filled by
    the constructor and by [addCommand] only, the two maps have the same
    keys, and the eight commands of the constructor are valid. For a name
    that is not valid both overloads of [makeCommandObject] throw the error
    of the factory. For a valid name they call the constructor of the
    registered class and return or propagate what it does: the lookup in the
    second map does not fail. So an overload throws if and only if the name
    is not valid or the constructor that it calls throws. [getCommandNames]
    lists exactly the valid names, each once. *)
Theorem C9_factory_throws_iff_invalid_name_or_constructor_throws
    (this : Factory Command CLIArguments Config)
    (Hfactory : factory construct constructWithArguments this)
    (commandName : string) (commandArgsGroups : list CLIArguments)
    (config : Config) :
  let valid := isValidCommandName this commandName in
  let made := makeCommandObject this commandName in
  let madeWithArguments :=
    makeCommandObjectWithArguments this commandName
      commandArgsGroups config in
  let registered_in this commandName T :=
    registered Command CLIArguments Config construct constructWithArguments
      this commandName T in
  (* addCommand *)
  (forall T name,
     let this' := addCommand construct constructWithArguments T name this in
     registered_in this' name T /\
     dom (map this') = {[name]} ∪ dom (map this) /\
     dom (mapWithArguments this') = {[name]} ∪ dom (mapWithArguments this)) /\
  (* the two maps *)
  dom (map this) = dom (mapWithArguments this) /\
  (forall name T, (name, T) ∈ commands ->
                  isValidCommandName this name = true) /\
  (* a name that is not valid *)
  (valid = false ->
   made = Thrown (SARUS_THROW_ERROR (InvalidCommandName commandName)) /\
   madeWithArguments =
     Thrown (SARUS_THROW_ERROR (InvalidCommandName commandName))) /\
  (* a valid name *)
  (valid = true ->
   exists T, registered_in this commandName T /\
             made = construct T /\
             madeWithArguments =
               constructWithArguments T commandArgsGroups config) /\
  (* when an overload throws *)
  (throws made <->
   valid = false \/
   exists T, registered_in this commandName T /\ throws (construct T)) /\
  (throws madeWithArguments <->
   valid = false \/
   exists T, registered_in this commandName T /\
             throws (constructWithArguments T commandArgsGroups config)) /\
  (* the names *)
  (commandName ∈ getCommandNames this <-> valid = true) /\
  NoDup (getCommandNames this).
Proof.
  intros valid made madeWithArguments registered_in.
  pose proof (factory_maps_agree _ _ _ _ _ this Hfactory) as Hagree.
  assert (valid = false ->
          made = Thrown (SARUS_THROW_ERROR (InvalidCommandName commandName)) /\
          madeWithArguments =
            Thrown (SARUS_THROW_ERROR (InvalidCommandName commandName)))
    as Hinvalid.
  { intros Hv. unfold made, madeWithArguments, makeCommandObject,
      makeCommandObjectWithArguments. fold valid. now rewrite Hv. }
  assert (valid = true ->
          exists T, registered_in this commandName T /\
                    made = construct T /\
                    madeWithArguments =
                      constructWithArguments T commandArgsGroups config)
    as Hvalid.
  { intros Hv. destruct (Hagree commandName) as [Hu|[T HT]].
    - apply isValidCommandName_unregistered in Hu. fold valid in Hu. congruence.
    - exists T. split; [exact HT|].
      unfold made, madeWithArguments, makeCommandObject,
        makeCommandObjectWithArguments. fold valid. rewrite Hv. simpl.
      destruct HT as [-> ->]. split; reflexivity. }
  assert (forall T, registered_in this commandName T -> valid = true)
    as Hregistered.
  { intros T HT. exact (isValidCommandName_registered _ _ _ _ _ _ _ _ HT). }
  split; [|split; [|split; [|split; [exact Hinvalid|split; [exact Hvalid|]]]]].
  - intros T name this'. split; [|split].
    + split; apply lookup_insert_eq.
    + unfold this', addCommand. simpl. apply dom_insert_L.
    + unfold this', addCommand. simpl. apply dom_insert_L.
  - apply set_eq. intros name. rewrite !elem_of_dom.
    destruct (Hagree name) as [[-> ->]|[T [-> ->]]]; split; intros [? ?];
      try discriminate; eauto.
  - intros name T Hin. exact (factory_knows_commands this name T Hfactory Hin).
  - split; [|split; [|split]].
    + split.
      * intros Hthrows. destruct valid eqn:Hv; [|now left]. right.
        destruct (Hvalid eq_refl) as (T & HT & Hmade & _).
        exists T. split; [exact HT|]. now rewrite <- Hmade.
      * intros [Hv|(T & HT & Hthrows)].
        -- destruct (Hinvalid Hv) as [-> _]. now eexists.
        -- pose proof (Hregistered T HT) as Hv.
           unfold made, makeCommandObject. fold valid. rewrite Hv. simpl.
           destruct HT as [-> _]. exact Hthrows.
    + split.
      * intros Hthrows. destruct valid eqn:Hv; [|now left]. right.
        destruct (Hvalid eq_refl) as (T & HT & _ & Hmade).
        exists T. split; [exact HT|]. now rewrite <- Hmade.
      * intros [Hv|(T & HT & Hthrows)].
        -- destruct (Hinvalid Hv) as [_ ->]. now eexists.
        -- pose proof (Hregistered T HT) as Hv.
           unfold madeWithArguments, makeCommandObjectWithArguments.
           fold valid. rewrite Hv. simpl. destruct HT as [_ ->]. exact Hthrows.
    + unfold getCommandNames, valid, isValidCommandName.
      rewrite bool_decide_eq_true, list_elem_of_fmap. split.
      * intros ([name make] & -> & Hin). apply elem_of_map_to_list in Hin.
        simpl. eauto.
      * intros [make Hmake]. exists (commandName, make).
        split; [reflexivity|]. now apply elem_of_map_to_list.
    + apply NoDup_fst_map_to_list.
Qed.

End Factory.

(** *** Commands whose constructors do not throw *)

(** A command object: a command of a class, or the help of a command. *)
Inductive object : Type :=
| Object (T : CommandType)
| HelpOfCommand (commandObject : object).

Definition sarus_objects : Factory object string unit :=
  sarus_factory object string unit
    (fun T => Returned (Object T)) (fun T _ _ => Returned (Object T)).


Example help_of_run :
  makeCommandObjectHelpOfCommand
    (fun commandObject => Returned (HelpOfCommand commandObject))
    sarus_objects "run" = Returned (HelpOfCommand (Object CommandRun)).
Proof. vm_compute. reflexivity. Qed.

(** *** A class whose constructor throws *)

(** The constructors of the class of the command run throw. *)
Definition throwing (T : CommandType) : result object :=
  match T with
  | CommandRun =>
      Thrown (SARUS_THROW_ERROR (ConstructorMessage "the command cannot run"))
  | _ => Returned (Object T)
  end.

Definition sarus_throwing : Factory object string unit :=
  sarus_factory object string unit throwing (fun T _ _ => throwing T).

(** The claim as it is stated: each overload throws if and only if the name
    is not valid, and the names are the valid names. *)
Definition C9_as_stated {Command CLIArguments Config : Type}
    (this : Factory Command CLIArguments Config) (commandName : string)
    (commandArgsGroups : list CLIArguments) (config : Config) : Prop :=
  (throws (makeCommandObject this commandName) <->
   isValidCommandName this commandName = false) /\
  (throws (makeCommandObjectWithArguments this commandName
             commandArgsGroups config) <->
   isValidCommandName this commandName = false) /\
  (forall s, s ∈ getCommandNames this <-> isValidCommandName this s = true).

(** C9 (as stated) fails: the name run is valid, and both overloads throw
    for it, because the constructor that they call throws. *)
Lemma C9_counterexample_constructor_throws :
  isValidCommandName sarus_throwing "run" = true /\
  throws (makeCommandObject sarus_throwing "run") /\
  throws (makeCommandObjectWithArguments sarus_throwing "run" ["alpine"] tt) /\
  ~ C9_as_stated sarus_throwing "run" ["alpine"] tt.
Proof.
  assert (throws (makeCommandObject sarus_throwing "run")) as Hthrows
    by (eexists; vm_compute; reflexivity).
  split; [vm_compute; reflexivity|]. split; [exact Hthrows|].
  split; [eexists; vm_compute; reflexivity|].
  intros [Hmade _]. apply Hmade in Hthrows. vm_compute in Hthrows.
  discriminate Hthrows.
Qed.

(** sarus run: the name is valid, and both overloads return what the
    constructors of the class of the command run return. *)
Lemma C9_witness_sarus_run :
  isValidCommandName sarus_objects "run" = true /\
  exists T,
    registered object string unit
      (fun T => Returned (Object T)) (fun T _ _ => Returned (Object T))
      sarus_objects "run" T /\
    makeCommandObject sarus_objects "run" = Returned (Object T) /\
    makeCommandObjectWithArguments sarus_objects "run" ["alpine"] tt
    = Returned (Object T) /\
    T = CommandRun.
Proof.
  split; [vm_compute; reflexivity|].
  destruct (C9_factory_throws_iff_invalid_name_or_constructor_throws
           object string unit
           (fun T => Returned (Object T)) (fun T _ _ => Returned (Object T))
           sarus_objects (factory_new _ _) "run" ["alpine"] tt)
    as (_ & _ & _ & _ & Hvalid & _).
  destruct Hvalid as (T & HT & Hmade & HmadeWithArguments);
    [vm_compute; reflexivity|].
  exists T. repeat split; try assumption; try apply HT.
  vm_compute in Hmade. now injection Hmade as <-.
Defined.

End CliTable.

(** ** What the test of the ssh hook reads from the environment file *)
Module SshTestFacts.
Import Environment Text Ssh SshFacts.

Lemma split_not_nil sep s : split sep s <> [].
Proof.
  destruct s as [|c s]; simpl; [discriminate|].
  destruct (Ascii.eqb c sep); [discriminate|].
  now destruct (split sep s).
Qed.

Lemma split_app sep a b :
  split sep (a +:+ String sep b) = split sep a ++ split sep b.
Proof.
  induction a as [|c a IH].
  - change (EmptyString +:+ String sep b) with (String sep b).
    change (split sep (String sep b))
      with (if Ascii.eqb sep sep then EmptyString :: split sep b
            else match split sep b with
                 | [] => [String sep EmptyString]
                 | token :: tokens => String sep token :: tokens
                 end).
    now rewrite Ascii.eqb_refl.
  - change (String c a +:+ String sep b) with (String c (a +:+ String sep b)).
    simpl. rewrite IH. destruct (Ascii.eqb c sep); [reflexivity|].
    pose proof (split_not_nil sep a). now destruct (split sep a).
Qed.

(** Text appended to a line after a space. *)
Definition followed_by_text (actualLine actualLine' : string) : Prop :=
  actualLine' = actualLine \/
  exists text, actualLine' = actualLine +:+ String " " text.

Lemma parseExportLine_followed_by_text actualLine actualLine' key value :
  followed_by_text actualLine actualLine' ->
  parseExportLine actualLine = inr (key, value) ->
  parseExportLine actualLine' = inr (key, value).
Proof.
  intros [->|[text ->]]; [auto|].
  unfold parseExportLine. cbv zeta. rewrite split_app.
  destruct (split " " actualLine !! 0%nat) as [token0|] eqn:H0; [|discriminate].
  rewrite (lookup_app_l_Some _ _ _ _ H0).
  destruct (negb (String.eqb token0 "export")); [discriminate|].
  destruct (split " " actualLine !! 1%nat) as [token1|] eqn:H1; [|discriminate].
  now rewrite (lookup_app_l_Some _ _ _ _ H1).
Qed.

Lemma actualMap_followed_by_text
    (actualLines actualLines' : list string) (map map' : gmap string string) :
  Forall2 followed_by_text actualLines actualLines' ->
  actualMap actualLines map = inr map' ->
  actualMap actualLines' map = inr map'.
Proof.
  intros Htext. revert map.
  induction Htext as [|l l' ls ls' Hl _ IH]; intros map Hread; [exact Hread|].
  simpl in *.
  destruct (parseExportLine l) as [why|[key value]] eqn:Hparse; [discriminate|].
  rewrite (parseExportLine_followed_by_text l l' key value Hl Hparse).
  now apply IH.
Qed.

(** X10. The check of the environment file reads the first two words of a
    line only: when an environment file passes the check, so does the file
    in which any text is appended, after a space, to lines that follow the
    first line. *)
Theorem X10_text_after_the_assignment_is_not_checked
    (container : rootfs) (environmentVariablesInContainer : list string)
    (actualLines actualLines' : list string) (mode : Z)
    (Hlines : Forall (fun l => occurs newline l = false) actualLines)
    (Hlines' : Forall (fun l => occurs newline l = false) actualLines')
    (Htext : Forall2 followed_by_text actualLines actualLines')
    (Hfile : container !! environmentFile =
             Some {| contents := unlines ("#!/bin/sh" :: actualLines);
                     permissions := mode |})
    (Hpassed : checkContainerHasEnvironmentFile container
                 environmentVariablesInContainer = Passed) :
  checkContainerHasEnvironmentFile
    (<[environmentFile :=
         {| contents := unlines ("#!/bin/sh" :: actualLines');
            permissions := mode |}]> container)
    environmentVariablesInContainer = Passed.
Proof.
  unfold checkContainerHasEnvironmentFile in *.
  rewrite lookup_insert_eq. rewrite Hfile in Hpassed.
  destruct (expectedMap environmentVariablesInContainer ∅) as [expected|];
    [|discriminate].
  cbv zeta in *. cbn [contents permissions] in *.
  rewrite getlines_unlines in Hpassed by (constructor; [reflexivity|exact Hlines]).
  rewrite getlines_unlines by (constructor; [reflexivity|exact Hlines']).
  cbn [head tail] in *.
  destruct (bool_decide (Some "#!/bin/sh" = Some "#!/bin/sh")); [|discriminate].
  cbn [CHECK] in *.
  destruct (actualMap actualLines ∅) as [why|actual] eqn:Hactual.
  { now destruct why. }
  now rewrite (actualMap_followed_by_text _ _ _ _ Htext Hactual).
Qed.

(** X11. A line without a space stops the loop over the lines of the
    environment file: the check that the first word is export fails, unless
    the line is the word export, and then the second word is read out of
    the range of the vector of words. *)
Theorem X11_line_without_space (actualLine : string)
    (Hspace : occurs " " actualLine = false) :
  parseExportLine actualLine =
  inl (if String.eqb actualLine "export" then OutOfRange else CheckFailed).
Proof.
  unfold parseExportLine. cbv zeta. rewrite (split_without _ _ Hspace).
  simpl lookup. cbv iota. now destruct (String.eqb actualLine "export").
Qed.

(** *** An environment file with text after an assignment *)

Definition assignment : string :=
  "export PATH=" +:+ String double_quote "/bin" +:+ String double_quote EmptyString.

Definition environment_file (actualLines : list string) : file :=
  {| contents := unlines ("#!/bin/sh" :: actualLines);
     permissions := Z.lor owner_all (Z.lor group_read others_read) |}.

(** The file that sets PATH passes the check, and so does the file whose
    line goes on with the removal of a directory. *)
Lemma X10_witness_command_after_the_assignment :
  checkContainerHasEnvironmentFile
    (<[environmentFile :=
         environment_file [assignment +:+ " ; rm -r /home"]]>
       {[environmentFile := environment_file [assignment]]})
    ["PATH=/bin"] = Passed.
Proof.
  apply (X10_text_after_the_assignment_is_not_checked
           {[environmentFile := environment_file [assignment]]}
           ["PATH=/bin"] [assignment] [assignment +:+ " ; rm -r /home"]).
  - repeat constructor.
  - repeat constructor.
  - constructor; [|constructor]. right. now exists "; rm -r /home".
  - reflexivity.
  - vm_compute. reflexivity.
Defined.

(** An empty line fails the check, and the line export is read out of
    range. *)
Lemma X11_witness_empty_line_and_export :
  parseExportLine EmptyString = inl CheckFailed /\
  parseExportLine "export" = inl OutOfRange.
Proof.
  split.
  - apply (X11_line_without_space EmptyString). reflexivity.
  - apply (X11_line_without_space "export"). reflexivity.
Defined.

End SshTestFacts.
